(** * Peak finding and Beersheba deconvolution post-processing

    A shallow embedding of

    - [invisible_cities/core/peak_functions.py]:
      [time_from_index], [rebin_waveform], [find_S12];
    - [invisible_cities/cities/beersheba.py]:
      [create_deconvolution_df], [distribute_energy], [deconvolve_hits]
      and the track ordering of [create_extract_track_blob_info].

    The Python code computes on NumPy [float64] values.  Every function
    below is written once, over an interface [Arith] of the arithmetic it
    uses, and is then read at two instances: IEEE-754 binary64 (Rocq's
    primitive floats, the arithmetic the program really runs) and the
    rationals [Q] (the same program with no rounding). *)

From Stdlib Require Import List ZArith QArith Qfield Lia Bool Floats.
From Stdlib Require Import Permutation Sorted RelationClasses Morphisms.
Import ListNotations.

Set Warnings "-inexact-float".
Set Implicit Arguments.
Local Open Scope Z_scope.

(** ** Arithmetic interface *)

Class Arith (R : Type) : Type := {
  zero  : R;
  add   : R -> R -> R;
  mul   : R -> R -> R;
  div   : R -> R -> R;
  ltb   : R -> R -> bool;          (* x < y *)
  leb   : R -> R -> bool;          (* x <= y *)
  eqb   : R -> R -> bool;          (* x == y *)
  of_Z  : Z -> R                   (* float(n) for a Python int n *)
}.

(** [x > y] is [y < x], and [x >= y] is [y <= x]. *)
Definition gtb {R} `{Arith R} (x y : R) : bool := ltb y x.
Definition geb {R} `{Arith R} (x y : R) : bool := leb y x.

(** A value is NaN when it differs from itself. *)
Definition isnan {R} `{Arith R} (x : R) : bool := negb (eqb x x).

(** Exact arithmetic. *)
Definition Qltb (x y : Q) : bool := negb (Qle_bool y x).

#[export] Instance Q_arith : Arith Q := {|
  zero := 0%Q;
  add  := Qplus;
  mul  := Qmult;
  div  := Qdiv;
  ltb  := Qltb;
  leb  := Qle_bool;
  eqb  := Qeq_bool;
  of_Z := inject_Z
|}.

(** IEEE-754 binary64, round to nearest even.  The conversion of an
    integer is the correctly rounded one for [|z| < 2^63], which covers
    every int32 or int64 sample index. *)
Definition float_of_Z (z : Z) : float :=
  if z <? 0 then PrimFloat.opp (PrimFloat.of_uint63 (Uint63.of_Z (- z)))
  else PrimFloat.of_uint63 (Uint63.of_Z z).

#[export] Instance float_arith : Arith float := {|
  zero := 0%float;
  add  := PrimFloat.add;
  mul  := PrimFloat.mul;
  div  := PrimFloat.div;
  ltb  := PrimFloat.ltb;
  leb  := PrimFloat.leb;
  eqb  := PrimFloat.eqb;
  of_Z := float_of_Z
|}.

(** ** Python exceptions *)

Inductive exn : Type :=
| AssertionError
| IndexError
| ValueError
| ZeroDivisionError.

Inductive result (A : Type) : Type :=
| Ok    (a : A)
| Raise (e : exn).

Arguments Ok {A} a.
Arguments Raise {A} e.

Definition bind {A B} (m : result A) (k : A -> result B) : result B :=
  match m with
  | Ok a => k a
  | Raise e => Raise e
  end.

Notation "x <- m ;; k" := (bind m (fun x => k))
  (at level 61, m at next level, right associativity).

(** ** Insertion-ordered dictionaries with integer keys *)

Definition dict (V : Type) : Type := list (nat * V).

Fixpoint dict_get {V} (d : dict V) (k : nat) : option V :=
  match d with
  | [] => None
  | (k', v) :: d' => if Nat.eqb k k' then Some v else dict_get d' k
  end.

(** [d[k] = v]: an existing key keeps its place, a new key goes last. *)
Fixpoint dict_set {V} (d : dict V) (k : nat) (v : V) : dict V :=
  match d with
  | [] => [(k, v)]
  | (k', v') :: d' =>
      if Nat.eqb k k' then (k', v) :: d' else (k', v') :: dict_set d' k v
  end.

(** In-place mutation of the object stored under [k], as in
    [d[k].append(x)]. *)
Fixpoint dict_alter {V} (f : V -> V) (d : dict V) (k : nat) : dict V :=
  match d with
  | [] => []
  | (k', v') :: d' =>
      if Nat.eqb k k' then (k', f v') :: d' else (k', v') :: dict_alter f d' k
  end.

Definition dict_keys {V} (d : dict V) : list nat := map fst d.
Definition dict_values {V} (d : dict V) : list V := map snd d.

(** ** Array helpers *)

(** [a[i] = v] on a preallocated array. *)
Fixpoint array_set {A} (a : list A) (i : nat) (v : A) : list A :=
  match a, i with
  | [], _ => []
  | _ :: a', O => v :: a'
  | x :: a', S i' => x :: array_set a' i' v
  end.

Module PeakFunctions.

Section WithArith.
Context {R : Type} `{Arith R}.

(** [tzs[i] = step * float(indx[i])] with [step = 25]. *)
Definition step : Z := 25.

Definition time_from_index (indx : list Z) : list R :=
  map (fun i => mul (of_Z step) (of_Z i)) indx.

(** [for k in range(j, j + len): acc += a[k]], starting from 0. *)
Definition sum_range (a : list R) (j len : nat) : R :=
  fold_left (fun acc k => add acc (nth k a zero)) (seq j len) zero.

(** The [for i in range(n)] loop of [rebin_waveform]: [n] counts the
    rounds left, [i] is the loop variable and [j] the running start of the
    chunk. *)
Fixpoint rebin_loop (t e : list R) (stride : nat)
         (n : nat) (i j : nat) (T E : list R) : list R * list R * nat :=
  match n with
  | O => (T, E, j)
  | S n' =>
      let esum  := sum_range e j stride in
      let tmean := sum_range t j stride in
      let tmean := div tmean (of_Z (Z.of_nat stride)) in
      let E := array_set E i esum in
      let T := array_set T i tmean in
      rebin_loop t e stride n' (S i) (j + stride) T E
  end.

Definition rebin_waveform (t e : list R) (stride : Z)
  : result (list R * list R) :=
  if negb (Nat.eqb (length t) (length e)) then Raise AssertionError else
  if stride =? 0 then Raise ZeroDivisionError else
  let len  := Z.of_nat (length t) in
  let n    := len / stride in
  let r    := len mod stride in
  let lenb := if 0 <? r then n + 1 else n in
  if lenb <? 0 then Raise ValueError else
  let T0 := repeat zero (Z.to_nat lenb) in
  let E0 := repeat zero (Z.to_nat lenb) in
  let '(T, E, j) :=
    rebin_loop t e (Z.to_nat stride) (Z.to_nat n) 0 0 T0 E0 in
  if 0 <? r then
    let esum  := sum_range e j (length t - j) in
    let tmean := sum_range t j (length t - j) in
    let tmean := div tmean (of_Z (Z.of_nat (length t - j))) in
    Ok (array_set T (Z.to_nat n) tmean, array_set E (Z.to_nat n) esum)
  else Ok (T, E).

(** A sample of a candidate peak is the pair [[T[i], P[i]]]. *)
Definition sample : Type := (R * R)%type.

(** The scanning loop [for i in range(1, len(wfzs))] of [find_S12].
    [prev] is [index[i-1]], the index of the array predecessor; each
    element of [rest] is [(index[i], (T[i], P[i]))].  Indices are sample
    positions, far from the bounds of their integer type, and are taken
    as unbounded integers. *)
Fixpoint scan (tmin tmax : R) (stride : Z) (prev : Z)
         (rest : list (Z * sample)) (S12 : dict (list sample)) (j : nat)
  : dict (list sample) :=
  match rest with
  | [] => S12
  | (ix, (ti, pi)) :: rest' =>
      if gtb ti tmax then S12                                   (* break *)
      else if ltb ti tmin then scan tmin tmax stride ix rest' S12 j
      else
        let '(S12, j) :=
          if ix - stride >? prev
          then (dict_set S12 (S j) [], S j)
          else (S12, j) in
        let S12 := dict_alter (fun s12 => s12 ++ [(ti, pi)]) S12 j in
        scan tmin tmax stride ix rest' S12 j
  end.

(** The candidate grouping [S12] built by the first half of [find_S12],
    for a non-empty input whose first entries are [i0], [t0], [p0]. *)
Definition group_S12 (tmin tmax : R) (stride : Z)
           (i0 : Z) (t0 p0 : R) (rest : list (Z * sample))
  : dict (list sample) :=
  let S12 := dict_set [] 0%nat [] in
  let S12 := dict_alter (fun s12 => s12 ++ [(t0, p0)]) S12 0%nat in
  scan tmin tmax stride i0 rest S12 0%nat.

(** [lmin <= ls < lmax] *)
Definition length_ok (lmin lmax : Z) (ls : nat) : bool :=
  (lmin <=? Z.of_nat ls) && (Z.of_nat ls <? lmax).

(** The arrays [t] and [e] copied out of one candidate peak. *)
Definition columns (s12 : list sample) : list R * list R :=
  (map fst s12, map snd s12).

(** The loop [for i in S12] that filters, re-indexes and rebins. *)
Fixpoint rearrange (lmin lmax : Z) (rebin : bool) (rebin_stride : Z)
         (S12 : dict (list sample)) (S12L : dict (list R * list R))
         (j : nat) : result (dict (list R * list R)) :=
  match S12 with
  | [] => Ok S12L
  | (_, s12) :: S12' =>
      let ls := length s12 in
      if negb (length_ok lmin lmax ls)
      then rearrange lmin lmax rebin rebin_stride S12' S12L j
      else
        let '(t, e) := columns s12 in
        if rebin then
          TRER <- rebin_waveform t e rebin_stride ;;
          rearrange lmin lmax rebin rebin_stride S12'
                    (dict_set S12L j TRER) (S j)
        else
          rearrange lmin lmax rebin rebin_stride S12'
                    (dict_set S12L j (t, e)) (S j)
  end.

Definition find_S12 (wfzs : list R) (index : list Z)
           (tmin tmax : R) (lmin lmax : Z)
           (stride : Z) (rebin : bool) (rebin_stride : Z)
  : result (dict (list R * list R)) :=
  let P := wfzs in
  let T := time_from_index index in
  if negb (Nat.eqb (length wfzs) (length index)) then Raise AssertionError
  else
    match index, T, P with
    | i0 :: index', t0 :: T', p0 :: P' =>
        let S12 :=
          group_S12 tmin tmax stride i0 t0 p0
                    (combine index' (combine T' P')) in
        rearrange lmin lmax rebin rebin_stride S12 [] 0%nat
    | _, _, _ => Raise IndexError             (* T[0], P[0] *)
    end.

End WithArith.

End PeakFunctions.


Module Beersheba.

Inductive CutType : Type := abs | rel.

Inductive DeconvolutionMode : Type := joint | separate.

(** Modelled from the spec: the enumeration [HitEnergy] of
    [evm/event_model.py], which is not among these files; its values are
    the two energy columns [E] and [Ec]. *)
Inductive HitEnergy : Type := E | Ec.

Section WithArith.
Context {R : Type} `{Arith R}.

(** One row of the sensor-response dataframe (cdst). *)
Record cdst_row : Type := mk_cdst {
  cdst_event : Z;
  cdst_npeak : Z;
  cdst_X     : R;
  cdst_Y     : R;
  cdst_Z     : R;
  cdst_Q     : R;
  cdst_E     : R;
  cdst_Ec    : R;
  cdst_Xpeak : R;
  cdst_Ypeak : R;
  cdst_NormQ : R
}.

(** One row of the deconvolved dataframe, columns
    [['event', 'npeak', 'X', 'Y', 'Z', 'E']]. *)
Record deco_row : Type := mk_deco {
  deco_event : Z;
  deco_npeak : Z;
  deco_X     : R;
  deco_Y     : R;
  deco_Z     : R;
  deco_E     : R
}.

(** [column.unique()[0]]: the first value of the column. *)
Definition first_unique {A} (column : list A) : result A :=
  match column with
  | [] => Raise IndexError
  | v :: _ => Ok v
  end.

(** [np.maximum(a, b)]: [a] if [a >= b] or [a] is NaN, else [b]. *)
Definition maximum (a b : R) : R :=
  if geb a b || isnan a then a else b.

(** [a.max()]; an empty array has no maximum. *)
Definition array_max (a : list R) : result R :=
  match a with
  | [] => Raise ValueError
  | x :: a' => Ok (fold_left maximum a' x)
  end.

(** [a[sel]] for a boolean mask [sel]. *)
Definition mask_select {A} (a : list A) (sel : list bool) : result (list A) :=
  if Nat.eqb (length a) (length sel)
  then Ok (map fst (filter snd (combine a sel)))
  else Raise IndexError.

(** [pos[k]] *)
Definition item {A} (pos : list A) (k : nat) : result A :=
  match nth_error pos k with
  | Some a => Ok a
  | None => Raise IndexError
  end.

(** Rows of a dataframe given by its columns; [event], [npeak] (and [Z]
    when it is a scalar) are broadcast. *)
Fixpoint frame (event npeak : Z) (X Y Zs E : list R) : list deco_row :=
  match X, Y, Zs, E with
  | x :: X', y :: Y', z :: Z', e :: E' =>
      mk_deco event npeak x y z e :: frame event npeak X' Y' Z' E'
  | _, _, _, _ => []
  end.

(** [cut_type] is a [CutType] here, so the final [else: raise ValueError]
    of the source has no case. *)
Definition create_deconvolution_df
           (hits : list cdst_row) (deconv_e : list R) (pos : list (list R))
           (cut_type : CutType) (e_cut : R) (n_dim : Z)
  : result (list deco_row) :=
  sel_deconv <-
    match cut_type with
    | abs => Ok (map (fun v => gtb v e_cut) deconv_e)
    | rel => m <- array_max deconv_e ;;
             Ok (map (fun v => gtb (div v m) e_cut) deconv_e)
    end ;;
  dfE   <- mask_select deconv_e sel_deconv ;;
  event <- first_unique (map cdst_event hits) ;;
  npeak <- first_unique (map cdst_npeak hits) ;;
  dfZ   <- (if n_dim =? 2
            then z <- first_unique (map cdst_Z hits) ;;
                 Ok (repeat z (length dfE))
            else p2 <- item pos 2 ;; mask_select p2 sel_deconv) ;;
  p0    <- item pos 0 ;;
  dfX   <- mask_select p0 sel_deconv ;;
  p1    <- item pos 1 ;;
  dfY   <- mask_select p1 sel_deconv ;;
  Ok (frame event npeak dfX dfY dfZ dfE).

(** [series.sum()] of pandas: NaN entries count as 0 ([skipna=True]) and
    the rest is accumulated left to right from 0 (NumPy's order on arrays
    of fewer than eight elements; on longer ones the additions are grouped
    pairwise, which changes roundings only). *)
Definition series_sum (s : list R) : R :=
  fold_left add (map (fun x => if isnan x then zero else x) s) zero.

Definition energy (energy_type : HitEnergy) (r : cdst_row) : R :=
  match energy_type with
  | E  => cdst_E r
  | Ec => cdst_Ec r
  end.

Definition set_E (r : deco_row) (e : R) : deco_row :=
  mk_deco (deco_event r) (deco_npeak r) (deco_X r) (deco_Y r) (deco_Z r) e.

(** [df.loc[:, 'E'] = df.E / df.E.sum() * cdst.loc[:, energy_type.value].sum()];
    the dataframe mutated in place is the one returned here. *)
Definition distribute_energy (df : list deco_row) (cdst : list cdst_row)
           (energy_type : HitEnergy) : list deco_row :=
  let dfE_sum   := series_sum (map deco_E df) in
  let cdst_sum  := series_sum (map (energy energy_type) cdst) in
  map (fun r => set_E r (mul (div (deco_E r) dfE_sum) cdst_sum)) df.

(** [series.unique()]: the distinct values in order of first appearance;
    as in pandas, all NaN entries count as one value. *)
Fixpoint unique (s : list R) : list R :=
  match s with
  | [] => []
  | x :: s' =>
      x :: filter (fun y => negb (eqb y x || (isnan y && isnan x)))
                  (unique s')
  end.

(** *** [deconvolve_hits]

    The closure [deconvolve_hits] of [deconvolve_signal].  The PSF table,
    [find_nearest], the interpolating Richardson-Lucy step [deconvolution]
    and the ingredients of the Gaussian pass come from modules outside
    these two files and are parameters here. *)
Section DeconvolveHits.
Variable psf_row : Type.
Variables psf_x psf_y psf_z : psf_row -> R.
Variable image : Type.
Variable flatten : image -> list R.
(** [find_nearest(array, value)]; [value] is a scalar or an array, a scalar
    being passed as a one-element list. *)
Variable find_nearest : list R -> list R -> R.
(** [deconvolve(n_iterations, iteration_tol, sample_width, bin_size,
    inter_method)] *)
Variable deconvolution :
  list (list R) -> list R -> list psf_row -> image * list (list R).
(** [dist.pdf(psf.loc[:, cols].values).reshape(...)] for
    [dist = multivariate_normal(zeros(n_dim), diffusion**2 * z * mm / cm)] *)
Variable gaus : R -> list psf_row -> image.
Variable richardson_lucy : image -> image -> Z -> R -> image.
Variable nan_to_num : image -> image.

Variable psfs : list psf_row.
Variables (e_cut iteration_tol : R) (n_iterations_g n_dim : Z).
Variable deconv_mode : DeconvolutionMode.
Variable cut_type : CutType.

(** [df.loc[:, dimensions].values.T] for
    [dimensions = ['X', 'Y', 'Z'][:n_dim]] *)
Definition dimensions_of (df : list cdst_row) : list (list R) :=
  firstn (Z.to_nat n_dim) [map cdst_X df; map cdst_Y df; map cdst_Z df].

(** [psfs.loc[(psfs.z == find_nearest(psfs.z, zz)) &
              (psfs.x == find_nearest(psfs.x, xx)) &
              (psfs.y == find_nearest(psfs.y, yy)), :]] *)
Definition psf_lookup (zz : R) (xx yy : list R) : list psf_row :=
  filter (fun p =>
            eqb (psf_z p) (find_nearest (map psf_z psfs) [zz])
            && eqb (psf_x p) (find_nearest (map psf_x psfs) xx)
            && eqb (psf_y p) (find_nearest (map psf_y psfs) yy))
         psfs.

(** The value [zz] used for the longitudinal coordinate of the lookup. *)
Definition lookup_z (z : R) : R :=
  match deconv_mode with
  | joint => z
  | separate => of_Z 0
  end.

(** The table [psf] that [deconvolve_hits] hands to [deconvolution]. *)
Definition slice_psf (df : list cdst_row) (z : R) : list psf_row :=
  let xx := unique (map cdst_Xpeak df) in
  let yy := unique (map cdst_Ypeak df) in
  let zz := lookup_z z in
  psf_lookup zz xx yy.

Definition deconvolve_hits (df : list cdst_row) (z : R)
  : result (list deco_row) :=
  let psf := slice_psf df z in
  let '(deconv_image, pos) :=
    deconvolution (dimensions_of df) (map cdst_NormQ df) psf in
  let deconv_image :=
    match deconv_mode with
    | joint => deconv_image
    | separate =>
        let psf := gaus z psf in
        nan_to_num (richardson_lucy deconv_image psf
                                    n_iterations_g iteration_tol)
    end in
  create_deconvolution_df df (flatten deconv_image) pos cut_type e_cut n_dim.

End DeconvolveHits.

End WithArith.

(** *** Track ordering in [create_extract_track_blob_info] *)

(** Python's [sorted(seq, key=key)]: a stable sort by ascending key.
    Insertion from the right keeps equal keys in their original order.
    A stable sort has one possible result when the keys are totally
    ordered by [lt], and this is then the result of CPython's [list.sort];
    for keys that [lt] does not order (a NaN among floats) the result of
    [list.sort] depends on its merge strategy and is not modelled. *)
Section Sorted.
Context {A K : Type} (key : A -> K) (lt : K -> K -> bool).

Fixpoint insert_sorted (x : A) (l : list A) : list A :=
  match l with
  | [] => [x]
  | y :: l' =>
      if lt (key y) (key x) then y :: insert_sorted x l' else x :: l
  end.

Fixpoint sorted_asc (l : list A) : list A :=
  match l with
  | [] => []
  | x :: l' => insert_sorted x (sorted_asc l')
  end.

(** [sorted(seq, key=key, reverse=reverse)].  As in CPython's [list.sort],
    a reversed sort reverses the list, sorts it stably in ascending order
    and reverses the result. *)
Definition sorted (l : list A) (reverse : bool) : list A :=
  if reverse then rev (sorted_asc (rev l)) else sorted_asc l.

End Sorted.

Section Tracks.
Context {R : Type} `{Arith R}.

(** Hits, voxels and track graphs are built by [paolina_functions]; only
    what [create_extract_track_blob_info] reads from them in these files
    is kept: a track's nodes, a voxel's energy [Ehits] and its hits. *)
Variable hit : Type.

Record voxel : Type := mk_voxel {
  Ehits    : R;
  vox_hits : list hit
}.

Record track : Type := mk_track {
  nodes : list voxel
}.

(** Python's [sum(list)]: left to right from the integer 0. *)
Definition py_sum (l : list R) : R := fold_left add l (of_Z 0).

(** [sum([vox.Ehits for vox in t.nodes()])] *)
Definition track_energy (t : track) : R := py_sum (map Ehits (nodes t)).

(** The columns of the summary row that are computed in this file; the
    geometric columns ([length], extrema, blobs) are computed by
    [paolina_functions] from the track alone and are carried as [geometry]. *)
Variable geometry_info : Type.
Variable geometry : track -> geometry_info.

Record summary : Type := mk_summary {
  trackID        : nat;
  sum_energy     : R;
  numb_of_voxels : nat;
  numb_of_hits   : nat;
  numb_of_tracks : nat;
  sum_geometry   : geometry_info
}.

(** [for c, t in enumerate(tracks, 0)] *)
Fixpoint enumerate {A} (c : nat) (l : list A) : list (nat * A) :=
  match l with
  | [] => []
  | x :: l' => (c, x) :: enumerate (S c) l'
  end.

(** The sorting step and the loop that fills the summary dataframe, given
    the track graphs returned by [plf.make_track_graphs]. *)
Definition track_summaries (tracks : list track) : list summary :=
  let tracks := sorted track_energy ltb tracks true in
  map (fun ct : nat * track =>
         let (c, t) := ct in
         mk_summary c (track_energy t)
                    (length (nodes t))
                    (length (flat_map vox_hits (nodes t)))
                    (length tracks)
                    (geometry t))
      (enumerate 0 tracks).

End Tracks.

Arguments Ehits {R hit} v.
Arguments vox_hits {R hit} v.
Arguments nodes {R hit} t.
Arguments track_energy {R H hit} t.
Arguments trackID {R geometry_info} s.
Arguments sum_energy {R geometry_info} s.
Arguments numb_of_voxels {R geometry_info} s.
Arguments numb_of_hits {R geometry_info} s.
Arguments numb_of_tracks {R geometry_info} s.
Arguments sum_geometry {R geometry_info} s.

End Beersheba.

Import PeakFunctions Beersheba.

(** ** Vocabulary of the statements *)

(** Running a fallible function over a list, stopping at the first
    exception. *)
Fixpoint mapM {A B} (f : A -> result B) (l : list A) : result (list B) :=
  match l with
  | [] => Ok []
  | x :: l' => y <- f x ;; ys <- mapM f l' ;; Ok (y :: ys)
  end.

(** What [find_S12] stores for a candidate peak that passes the length
    test. *)
Definition finish_peak {R} `{Arith R} (rebin : bool) (rebin_stride : Z)
           (s12 : list (sample (R := R))) : result (list R * list R) :=
  let '(t, e) := columns s12 in
  if rebin then rebin_waveform t e rebin_stride else Ok (t, e).

(** The candidate peaks that pass [lmin <= ls < lmax], in discovery
    order. *)
Definition kept_peaks {R} (lmin lmax : Z) (S12 : dict (list (R * R)))
  : list (list (R * R)) :=
  filter (fun s12 => length_ok lmin lmax (length s12)) (dict_values S12).

(** A dictionary whose keys are 0, 1, 2, ... in this order. *)
Definition reindexed {V} (vs : list V) : dict V :=
  combine (seq 0 (length vs)) vs.

(** The rows [create_deconvolution_df] builds, in two dimensions, from
    the bins (value, x, y) whose value satisfies [keep]; [h] is the first
    row of [hits]. *)
Definition retained_rows {R} `{Arith R} (h : cdst_row (R := R))
           (keep : R -> bool) (deconv_e px py : list R)
  : list (deco_row (R := R)) :=
  map (fun b : R * (R * R) =>
         mk_deco (cdst_event h) (cdst_npeak h)
                 (fst (snd b)) (snd (snd b)) (cdst_Z h) (fst b))
      (filter (fun b => keep (fst b)) (combine deconv_e (combine px py))).

(** The [E] column of a result. *)
Definition column_E {R} `{Arith R} (df : result (list (deco_row (R := R))))
  : result (list R) :=
  rows <- df ;; Ok (map deco_E rows).

(** A slice of one sensor row at the origin, in binary64. *)
Definition one_hit : cdst_row (R := float) :=
  mk_cdst 0 0 0%float 0%float 0%float 1%float 1%float 1%float
          0%float 0%float 1%float.

(** A deconvolved row that carries only an energy. *)
Definition deco_of_energy {R} `{Arith R} (e : R) : deco_row (R := R) :=
  mk_deco 0 0 zero zero zero e.

(** A sensor row that carries only an energy, in both energy columns. *)
Definition cdst_of_energy {R} `{Arith R} (e : R) : cdst_row (R := R) :=
  mk_cdst 0 0 zero zero zero zero e e zero zero zero.


(** Consecutive times of a peak are at most [bound] apart; for times
    [25 * index] and [bound = 25 * stride] this says that consecutive
    index gaps do not exceed [stride]. *)
Fixpoint gaps_within (bound : Q) (ts : list Q) : Prop :=
  match ts with
  | t1 :: (t2 :: _) as ts' => (t2 - t1 <= bound)%Q /\ gaps_within bound ts'
  | _ => True
  end.

(** Total of a list of rationals, left to right. *)
Definition Qsum (l : list Q) : Q := fold_left Qplus l 0%Q.

(** Total of a list of binary64 numbers, left to right. *)
Definition fsum (l : list float) : float := fold_left PrimFloat.add l 0%float.


(** ** More of [peak_functions.py] *)

Module ZeroSuppression.

Section WithArith.
Context {R : Type} `{Arith R}.

(** The selection loop [for i in range(len_wf)] of [wfzs]: [rest] holds
    [wf[i:]], [wfzs_e] and [wfzs_i] are the scratch arrays and [j] the
    number of samples stored so far.  The positions written to the int32
    array [wfzs_i] are below [len_wf] and are kept as integers. *)
Fixpoint wfzs_select (threshold : R) (rest : list R) (i : nat)
         (wfzs_e : list R) (wfzs_i : list Z) (j : nat)
  : list R * list Z * nat :=
  match rest with
  | [] => (wfzs_e, wfzs_i, j)
  | wf_i :: rest' =>
      if gtb wf_i threshold
      then wfzs_select threshold rest' (S i)
                       (array_set wfzs_e j wf_i)
                       (array_set wfzs_i j (Z.of_nat i)) (S j)
      else wfzs_select threshold rest' (S i) wfzs_e wfzs_i j
  end.

(** [for i in range(n): dst[i] = src[i]], with [i] counting up. *)
Fixpoint copy_loop {A} (d : A) (n i : nat) (dst src : list A) : list A :=
  match n with
  | O => dst
  | S n' => copy_loop d n' (S i) (array_set dst i (nth i src d)) src
  end.

Definition wfzs (wf : list R) (threshold : R) : list R * list Z :=
  let len_wf := length wf in
  let wfzs_e := repeat zero len_wf in
  let wfzs_i := repeat 0 len_wf in
  let '(wfzs_e, wfzs_i, j) :=
    wfzs_select threshold wf 0 wfzs_e wfzs_i 0 in
  let wfzs_ene  := repeat zero j in
  let wfzs_indx := repeat 0 j in
  (copy_loop zero j 0 wfzs_ene wfzs_e, copy_loop 0 j 0 wfzs_indx wfzs_i).

End WithArith.

End ZeroSuppression.

Import ZeroSuppression.

(** The samples of a waveform above threshold, each with its position. *)
Definition above {R} `{Arith R} (threshold : R) (wf : list R)
  : list (nat * R) :=
  filter (fun ix => gtb (snd ix) threshold)
         (combine (seq 0 (length wf)) wf).

(** The candidate peaks of the scan of [find_S12] as a list: [cur] is the
    peak being filled and the result lists it, as filled in the end,
    followed by the peaks opened after it. *)
Fixpoint groups_of {R} `{Arith R} (tmin tmax : R) (stride : Z) (prev : Z)
         (rest : list (Z * (R * R))) (cur : list (R * R))
  : list (list (R * R)) :=
  match rest with
  | [] => [cur]
  | (ix, (ti, pi)) :: rest' =>
      if gtb ti tmax then [cur]
      else if ltb ti tmin then groups_of tmin tmax stride ix rest' cur
      else if ix - stride >? prev
           then cur :: groups_of tmin tmax stride ix rest' [(ti, pi)]
           else groups_of tmin tmax stride ix rest' (cur ++ [(ti, pi)])
  end.

(** The samples the scan of [find_S12] stores: those before the first one
    later than [tmax], less the ones earlier than [tmin]. *)
Fixpoint scanned {R} `{Arith R} (tmin tmax : R)
         (rest : list (Z * (R * R))) : list (R * R) :=
  match rest with
  | [] => []
  | (_, (ti, pi)) :: rest' =>
      if gtb ti tmax then []
      else if ltb ti tmin then scanned tmin tmax rest'
      else (ti, pi) :: scanned tmin tmax rest'
  end.

(** The array triples [(index[i], (T[i], P[i]))] of [find_S12] from the
    second sample on. *)
Definition tail_samples {R} `{Arith R} (index' : list Z) (P' : list R)
  : list (Z * (R * R)) :=
  combine index' (combine (time_from_index index') P').

(** Adjacent peaks are more than [bound] apart: the first time of a peak
    exceeds the last time of the peak before it by more than [bound]. *)
Fixpoint separated (bound : Q) (gs : list (list (Q * Q))) : Prop :=
  match gs with
  | g1 :: (g2 :: _) as gs' =>
      (bound < hd 0 (map fst g2) - last (map fst g1) 0)%Q
      /\ separated bound gs'
  | _ => True
  end.

(** The number of bins of a waveform of [len] samples rebinned by [s]:
    the full bins and one more for a remainder. *)
Definition bin_count (len s : nat) : nat :=
  (len / s + (if Nat.eqb (len mod s) 0 then 0 else 1))%nat.

(** The size of bin [m]: [s], or what is left of the waveform. *)
Definition bin_size (len s m : nat) : nat := Nat.min s (len - m * s).

(** The energy of bin [m]: the samples [e[m*s : m*s + size]] added left
    to right. *)
Definition bin_sum {R} `{Arith R} (e : list R) (s m : nat) : R :=
  sum_range e (m * s) (bin_size (length e) s m).

(** The time of bin [m]: the mean of the times of its samples. *)
Definition bin_mean {R} `{Arith R} (t : list R) (s m : nat) : R :=
  div (sum_range t (m * s) (bin_size (length t) s m))
      (of_Z (Z.of_nat (bin_size (length t) s m))).

(** ** More of [beersheba.py] *)

Module Event.

(** [len(df) > 0] *)
Definition check_nonempty_dataframe {A} (df : list A) : bool :=
  (0 <? length df)%nat.

(** [pd.concat(frames, ignore_index=True)]; there must be a frame to
    concatenate. *)
Definition pd_concat {A} (frames : list (list A)) : result (list A) :=
  match frames with
  | [] => Raise ValueError
  | _ :: _ => Ok (concat frames)
  end.

(** The distinct values of an integer column, in order of first
    appearance. *)
Fixpoint unique_Z (s : list Z) : list Z :=
  match s with
  | [] => []
  | x :: s' => x :: filter (fun y => negb (y =? x)) (unique_Z s')
  end.

Section WithArith.
Context {R : Type} `{Arith R}.

(** [df.groupby("npeak")]: one group per peak number, in ascending order
    of the numbers, each with its rows in their original order. *)
Definition groupby_npeak (df : list (cdst_row (R := R))) : list (Z * list (cdst_row (R := R))) :=
  map (fun peak => (peak, filter (fun r => cdst_npeak r =? peak) df))
      (sorted_asc (fun peak => peak) Z.ltb (unique_Z (map cdst_npeak df))).

(** [hits.groupby("Z")]: one group per value of [Z], in ascending order;
    rows whose [Z] is NaN belong to no group. *)
Definition groupby_Z (hits : list (cdst_row (R := R))) : list (R * list (cdst_row (R := R))) :=
  map (fun z => (z, filter (fun r => eqb (cdst_Z r) z) hits))
      (sorted_asc (fun z => z) ltb
                  (unique (filter (fun z => negb (isnan z))
                                  (map cdst_Z hits)))).

Definition set_NormQ (r : cdst_row (R := R)) (v : R) : cdst_row (R := R) :=
  mk_cdst (cdst_event r) (cdst_npeak r) (cdst_X r) (cdst_Y r) (cdst_Z r)
          (cdst_Q r) (cdst_E r) (cdst_Ec r) (cdst_Xpeak r) (cdst_Ypeak r) v.

(** [hits.loc[:, "NormQ"] = hits.loc[:, 'Q'] / hits.loc[:, 'Q'].sum()] *)
Definition normalise_Q (hits : list (cdst_row (R := R))) : list (cdst_row (R := R)) :=
  let Q_sum := series_sum (map cdst_Q hits) in
  map (fun r => set_NormQ r (div (cdst_Q r) Q_sum)) hits.

(** The closure [apply_deconvolution] of [deconvolve_signal], over the
    closure [deconvolve_hits] it calls on every slice. *)
Section ApplyDeconvolution.
Variable deconvolve_hits : list (cdst_row (R := R)) -> R -> result (list (deco_row (R := R))).
Variable energy_type : HitEnergy.

(** [pd.concat([deconvolve_hits(df_z, z)
                for z, df_z in hits.groupby("Z")], ignore_index=True)] *)
Definition deconvolved_hits_of (hits : list (cdst_row (R := R)))
  : result (list (deco_row (R := R))) :=
  frames <- mapM (fun g : R * list (cdst_row (R := R)) =>
                    deconvolve_hits (snd g) (fst g))
                 (groupby_Z hits) ;;
  pd_concat frames.

(** The body of the loop over peaks: the frame appended to [deco_dst].
    The column [NormQ], created as NaN on the whole event, is overwritten
    here before it is read. *)
Definition deconvolve_peak (hits : list (cdst_row (R := R))) : result (list (deco_row (R := R))) :=
  let hits := normalise_Q hits in
  deconvolved_hits <- deconvolved_hits_of hits ;;
  Ok (distribute_energy deconvolved_hits hits energy_type).

Definition apply_deconvolution (df : list (cdst_row (R := R)))
  : result (list (deco_row (R := R))) :=
  deco_dst <- mapM (fun g : Z * list (cdst_row (R := R)) => deconvolve_peak (snd g))
                   (groupby_npeak df) ;;
  pd_concat deco_dst.

End ApplyDeconvolution.

End WithArith.

End Event.

Import Event.

Module Topology.

Section WithArith.
Context {R : Type} `{Arith R}.
Variable hit : Type.

(** The hits of a track, [[h for vox in t.nodes() for h in vox.hits]]. *)
Definition hits_of (t : track (R := R) hit) : list hit :=
  flat_map vox_hits (nodes t).

(** The loop that fills [track_hits]: every hit of the c-th track, in
    the sorted order, gets [track_id = c] and is appended.  A relabelled
    hit is kept as the pair of its new [track_id] and the hit. *)
Definition track_hits (tracks : list (track (R := R) hit))
  : list (nat * hit) :=
  let tracks := sorted track_energy ltb tracks true in
  flat_map (fun ct : nat * track hit =>
              let (tID, t) := ct in map (fun h => (tID, h)) (hits_of t))
           (enumerate 0 tracks).

End WithArith.

End Topology.

Import Topology.

Module Configuration.

(** The two exceptions of the dimension checks of the city. *)
Inductive config_error : Type :=
| ConfigValueError
| NotImplementedError.

Inductive checked : Type :=
| Accepted
| Rejected (e : config_error).

(** [len(deconv_params[p]) != deconv_params['n_dim']] *)
Definition wrong_length {A} (p : list A) (n_dim : Z) : bool :=
  negb (Z.of_nat (length p) =? n_dim).

(** The dimension checks of [beersheba]: the loop over [sample_width],
    [bin_size] and [diffusion], then the test of [n_dim]. *)
Definition check_dimensions {A} (sample_width bin_size diffusion : list A)
           (n_dim : Z) : checked :=
  if wrong_length sample_width n_dim then Rejected ConfigValueError
  else if wrong_length bin_size n_dim then Rejected ConfigValueError
  else if wrong_length diffusion n_dim then Rejected ConfigValueError
  else if n_dim >? 2 then Rejected NotImplementedError
  else Accepted.

End Configuration.

Import Configuration.

(** The rows of a result, none for an exception. *)
Definition rows_of {A} (r : result (list A)) : list A :=
  match r with
  | Ok rows => rows
  | Raise _ => []
  end.

(** A stand-in for [deconvolve_hits] that answers every slice with one
    hit of energy 1. *)
Definition one_hit_per_slice (df_z : list (cdst_row (R := Q))) (z : Q)
  : result (list (deco_row (R := Q))) :=
  Ok [deco_of_energy 1%Q].

(** The values of an image are totally ordered by [<=] and none of them
    is NaN; decided by evaluation. *)
Definition ordered_image {R} `{Arith R} (l : list R) : bool :=
  forallb (fun x => negb (isnan x)) l
  && forallb (fun x => forallb (fun y => leb x y || leb y x) l) l
  && forallb (fun x =>
                forallb (fun y =>
                           forallb (fun z =>
                                      implb (leb x y && leb y z) (leb x z))
                                   l) l) l.

(** [m] is the maximum of the image: one of its values, and no value
    exceeds it. *)
Definition is_image_maximum {R} `{Arith R} (m : R) (l : list R) : Prop :=
  In m l /\ Forall (fun v => leb v m = true) l.

(** Stand-ins for the functions [deconvolve_hits] takes from other
    modules: an empty PSF table and a deconvolution that returns the
    normalised charges at the sensor positions. *)
Definition identity_deconvolution (dims : list (list Q)) (NormQ : list Q)
           (psf : list unit) : list Q * list (list Q) :=
  (NormQ, dims).

(** The closure [deconvolve_hits] over these stand-ins, in joint mode with
    an absolute cut at 0 in two dimensions. *)
Definition deconvolve_hits_identity
  : list (cdst_row (R := Q)) -> Q -> result (list (deco_row (R := Q))) :=
  deconvolve_hits (fun _ : unit => 0%Q) (fun _ => 0%Q) (fun _ => 0%Q)
                  (fun image : list Q => image)
                  (fun _ _ => 0%Q)
                  identity_deconvolution
                  (fun _ _ => [])
                  (fun image _ _ _ => image)
                  (fun image => image)
                  [] 0%Q 0%Q 0 2 joint abs.

(** A sensor row of peak [npeak] at longitudinal position [z] with charge
    [q] and energy [e]. *)
Definition sensor_row (npeak : Z) (z q e : Q) : cdst_row (R := Q) :=
  mk_cdst 0 npeak 0%Q 0%Q z q e e 0%Q 0%Q 0%Q.

(** * Properties *)

(** ** Two runs *)

Example find_S12_two_clusters :
  find_S12 (R := Q) [1; 2; 3; 4; 5]%Q [10; 11; 12; 20; 21]
           0%Q 1000000%Q 2 100 4 false 40
  = Ok [(0%nat, ([250; 275; 300]%Q, [1; 2; 3]%Q));
        (1%nat, ([500; 525]%Q, [4; 5]%Q))].
Proof. vm_compute. reflexivity. Qed.

Example rebin_waveform_float :
  rebin_waveform [1; 2; 3; 4; 5]%float [1; 1; 1; 1; 1]%float 2
  = Ok ([1.5; 3.5; 5]%float, [2; 2; 1]%float).
Proof. vm_compute. reflexivity. Qed.


(** ** Dictionaries *)

Section DictFacts.
Context {V : Type}.
Implicit Types (d : dict V) (k : nat) (v : V).

Lemma dict_get_set d k v k' :
  dict_get (dict_set d k v) k' =
  if Nat.eqb k' k then Some v else dict_get d k'.
Proof.
  induction d as [|[k0 v0] d IH]; simpl.
  - destruct (Nat.eqb k' k); reflexivity.
  - destruct (Nat.eqb k k0) eqn:E; simpl.
    + apply Nat.eqb_eq in E; subst k0.
      destruct (Nat.eqb k' k); reflexivity.
    + destruct (Nat.eqb k' k0) eqn:E'.
      * apply Nat.eqb_eq in E'; subst k0.
        rewrite Nat.eqb_sym, E. reflexivity.
      * apply IH.
Qed.

Lemma dict_get_alter (f : V -> V) d k k' :
  dict_get (dict_alter f d k) k' =
  if Nat.eqb k' k then option_map f (dict_get d k) else dict_get d k'.
Proof.
  induction d as [|[k0 v0] d IH]; simpl.
  - destruct (Nat.eqb k' k); reflexivity.
  - destruct (Nat.eqb k k0) eqn:E; simpl.
    + apply Nat.eqb_eq in E; subst k0.
      destruct (Nat.eqb k' k); reflexivity.
    + destruct (Nat.eqb k' k0) eqn:E'.
      * apply Nat.eqb_eq in E'; subst k0.
        rewrite Nat.eqb_sym, E. reflexivity.
      * apply IH.
Qed.

Lemma dict_set_fresh d k v :
  ~ In k (dict_keys d) -> dict_set d k v = d ++ [(k, v)].
Proof.
  induction d as [|[k0 v0] d IH]; simpl; intros Hk; [reflexivity|].
  destruct (Nat.eqb k k0) eqn:E.
  - apply Nat.eqb_eq in E. exfalso. apply Hk. left. congruence.
  - rewrite IH; [reflexivity|]. intros Hin. apply Hk. right. exact Hin.
Qed.

Lemma dict_alter_last (f : V -> V) d k v :
  ~ In k (dict_keys d) ->
  dict_alter f (d ++ [(k, v)]) k = d ++ [(k, f v)].
Proof.
  induction d as [|[k0 v0] d IH]; simpl; intros Hk.
  - rewrite Nat.eqb_refl. reflexivity.
  - destruct (Nat.eqb k k0) eqn:E.
    + apply Nat.eqb_eq in E. exfalso. apply Hk. left. congruence.
    + rewrite IH; [reflexivity|]. intros Hin. apply Hk. right. exact Hin.
Qed.

End DictFacts.

(** ** [find_S12]: the first sample *)

Section FirstSample.
Context {R : Type} `{Arith R}.

Lemma scan_keeps_first tmin tmax stride (s0 : sample (R := R)) :
  forall rest prev S12 j l,
    dict_get S12 0%nat = Some (s0 :: l) ->
    exists l', dict_get (scan tmin tmax stride prev rest S12 j) 0%nat
               = Some (s0 :: l').
Proof.
  induction rest as [|[ix [ti pi]] rest IH]; simpl; intros prev S12 j l H0.
  - eauto.
  - destruct (gtb ti tmax); [eauto|].
    destruct (ltb ti tmin); [eauto|].
    destruct (ix - stride >? prev).
    + eapply IH. rewrite dict_get_alter, dict_get_set. simpl.
      rewrite dict_get_set. simpl. rewrite H0. reflexivity.
    + destruct j as [|j].
      * eapply IH. rewrite dict_get_alter. simpl. rewrite H0.
        simpl. reflexivity.
      * eapply IH. rewrite dict_get_alter. simpl. exact H0.
Qed.

(** C3.  On empty arrays [find_S12] does not return an empty mapping: the
    length assertion passes and the unguarded read of [T[0]] raises
    [IndexError] whatever the parameters are. *)
Theorem find_S12_empty_raises
        (tmin tmax : R) (lmin lmax stride : Z) (rebin : bool)
        (rebin_stride : Z) :
  find_S12 [] [] tmin tmax lmin lmax stride rebin rebin_stride
  = Raise IndexError.
Proof. reflexivity. Qed.

(** C10.  For every non-empty input (arrays of equal length) the result of
    [find_S12] is the filtering pass run on a candidate grouping whose
    peak 0 starts with the first sample [(T[0], P[0])], whatever [tmin],
    [tmax] and [stride] are: no time-window test is applied to it. *)
Theorem find_S12_first_sample_unconditional
        (p0 : R) (P' : list R) (i0 : Z) (index' : list Z)
        (tmin tmax : R) (lmin lmax stride : Z) (rebin : bool)
        (rebin_stride : Z) :
  let t0 := mul (of_Z 25) (of_Z i0) in
  let S12 := group_S12 tmin tmax stride i0 t0 p0
               (combine index' (combine (time_from_index index') P')) in
  find_S12 (p0 :: P') (i0 :: index')
           tmin tmax lmin lmax stride rebin rebin_stride
  = (if Nat.eqb (length P') (length index')
     then rearrange lmin lmax rebin rebin_stride S12 [] 0%nat
     else Raise AssertionError)
  /\ exists others, dict_get S12 0%nat = Some ((t0, p0) :: others).
Proof.
  intros t0 S12. split.
  - unfold find_S12. simpl.
    destruct (Nat.eqb (length P') (length index')); reflexivity.
  - unfold S12, group_S12. eapply scan_keeps_first. reflexivity.
Qed.

End FirstSample.

(** ** [find_S12]: the length window *)

Section LengthWindow.
Context {R : Type} `{Arith R}.

Lemma mapM_app {A B} (f : A -> result B) (l1 l2 : list A) :
  mapM f (l1 ++ l2) =
  (ys1 <- mapM f l1 ;; ys2 <- mapM f l2 ;; Ok (ys1 ++ ys2)).
Proof.
  induction l1 as [|x l1 IH]; simpl.
  - destruct (mapM f l2); reflexivity.
  - destruct (f x) as [y|err]; simpl; [|reflexivity].
    rewrite IH. destruct (mapM f l1) as [ys1|err]; simpl; [|reflexivity].
    destruct (mapM f l2); reflexivity.
Qed.

Lemma dict_keys_app {V} (d1 d2 : dict V) :
  dict_keys (d1 ++ d2) = dict_keys d1 ++ dict_keys d2.
Proof. apply map_app. Qed.

(** The filtering loop appends, under the keys [j], [j+1], ..., what
    [finish_peak] makes of the peaks that pass the length test. *)
Lemma rearrange_spec lmin lmax rebin rebin_stride :
  forall (S12 : dict (list sample)) (S12L : dict (list R * list R)) j,
    Forall (fun k => (k < j)%nat) (dict_keys S12L) ->
    rearrange lmin lmax rebin rebin_stride S12 S12L j =
    (outs <- mapM (finish_peak rebin rebin_stride) (kept_peaks lmin lmax S12) ;;
     Ok (S12L ++ combine (seq j (length outs)) outs)).
Proof.
  unfold kept_peaks.
  induction S12 as [|[k s12] S12 IH]; intros S12L j Hk.
  - simpl. rewrite app_nil_r. reflexivity.
  - cbn [rearrange dict_values map snd filter].
    fold (dict_values S12). unfold sample in *.
    destruct (length_ok lmin lmax (length s12)) eqn:Hok;
      cbn [negb]; [|apply IH; exact Hk].
    assert (Hfresh : ~ In j (dict_keys S12L)).
    { intros Hin. rewrite Forall_forall in Hk. apply Hk in Hin. lia. }
    assert (Hk' : forall v : list R * list R,
               Forall (fun k => (k < S j)%nat)
                      (dict_keys (S12L ++ [(j, v)]))).
    { intros v. rewrite dict_keys_app. apply Forall_app. split.
      - eapply Forall_impl; [|exact Hk]. simpl. intros; lia.
      - repeat constructor. }
    cbn [mapM]. unfold finish_peak at 1. unfold columns.
    destruct rebin.
    + destruct (rebin_waveform (map fst s12) (map snd s12) rebin_stride)
        as [TRER|err]; cbn [bind]; [|reflexivity].
      rewrite dict_set_fresh by exact Hfresh.
      rewrite IH by apply Hk'.
      destruct (mapM _ _) as [outs|err]; cbn [bind]; [|reflexivity].
      rewrite <- app_assoc. reflexivity.
    + cbn [bind]. rewrite dict_set_fresh by exact Hfresh.
      rewrite IH by apply Hk'.
      destruct (mapM _ _) as [outs|err]; cbn [bind]; [|reflexivity].
      rewrite <- app_assoc. reflexivity.
Qed.

Lemma length_ok_iff lmin lmax ls :
  length_ok lmin lmax ls = true <-> lmin <= Z.of_nat ls < lmax.
Proof. unfold length_ok. rewrite andb_true_iff. lia. Qed.

(** C4.  On a non-empty input, [find_S12] returns, re-keyed 0, 1, 2, ...
    in discovery order, exactly the candidate peaks whose sample count
    [ls] satisfies [lmin <= ls < lmax].  So a candidate of [lmin] samples
    is kept (the window being non-empty, [lmin < lmax]), one of [lmin - 1]
    samples is dropped and one of [lmax] samples is dropped. *)
Theorem find_S12_length_window
        (p0 : R) (P' : list R) (i0 : Z) (index' : list Z)
        (tmin tmax : R) (lmin lmax stride : Z) (rebin : bool)
        (rebin_stride : Z) :
  length P' = length index' ->
  let S12 := group_S12 tmin tmax stride i0 (mul (of_Z 25) (of_Z i0)) p0
               (combine index' (combine (time_from_index index') P')) in
  let kept := kept_peaks lmin lmax S12 in
  find_S12 (p0 :: P') (i0 :: index')
           tmin tmax lmin lmax stride rebin rebin_stride
  = (outs <- mapM (finish_peak rebin rebin_stride) kept ;;
     Ok (reindexed outs))
  /\ (forall s12, In s12 (dict_values S12) ->
        (In s12 kept <-> lmin <= Z.of_nat (length s12) < lmax))
  /\ (forall s12, In s12 (dict_values S12) ->
        (Z.of_nat (length s12) = lmin -> lmin < lmax -> In s12 kept)
        /\ (Z.of_nat (length s12) = lmin - 1 -> ~ In s12 kept)
        /\ (Z.of_nat (length s12) = lmax -> ~ In s12 kept)).
Proof.
  intros Hlen S12 kept.
  assert (Hkept : forall s12, In s12 (dict_values S12) ->
            (In s12 kept <-> lmin <= Z.of_nat (length s12) < lmax)).
  { intros s12 Hin. unfold kept, kept_peaks.
    rewrite filter_In, length_ok_iff. tauto. }
  split; [|split].
  - unfold find_S12. simpl. rewrite Hlen, Nat.eqb_refl. simpl.
    fold S12. rewrite rearrange_spec by constructor. reflexivity.
  - exact Hkept.
  - intros s12 Hin. specialize (Hkept s12 Hin).
    repeat split; intros; rewrite Hkept; lia.
Qed.

End LengthWindow.

(** The length window on a concrete waveform. *)
Lemma find_S12_length_window_witness :
  find_S12 (R := Q) [1; 2; 3; 4; 5]%Q [10; 11; 12; 20; 21]
           0%Q 1000000%Q 3 100 4 false 40
  = Ok [(0%nat, ([250; 275; 300]%Q, [1; 2; 3]%Q))].
Proof.
  pose proof (@find_S12_length_window Q _ 1%Q [2; 3; 4; 5]%Q 10 [11; 12; 20; 21]
                0%Q 1000000%Q 3 100 4 false 40 eq_refl) as W.
  cbv zeta in W. destruct W as [W _]. rewrite W. vm_compute. reflexivity.
Defined.

(** ** [find_S12]: stride zero *)

Section StrideZero.
Context {R : Type} `{Arith R}.

Lemma map_fst_zip {A B} (l : list A) (l' : list B) :
  length l' = length l -> map fst (combine l l') = l.
Proof.
  revert l'. induction l as [|a l IH]; intros [|b l'] Hlen; simpl in *;
    try reflexivity; try discriminate.
  f_equal. apply IH. lia.
Qed.

Lemma map_snd_zip {A B} (l : list A) (l' : list B) :
  length l' = length l -> map snd (combine l l') = l'.
Proof.
  revert l'. induction l as [|a l IH]; intros [|b l'] Hlen; simpl in *;
    try reflexivity; try discriminate.
  f_equal. apply IH. lia.
Qed.

(** With [stride = 0], strictly increasing indices and every sample
    inside the time window, each step of the scan opens a new peak. *)
Lemma scan_stride_zero tmin tmax :
  forall (rest : list (Z * sample)) prev (D : dict (list sample)) j s,
    Forall (fun k => (k < j)%nat) (dict_keys D) ->
    Sorted Z.lt (prev :: map fst rest) ->
    Forall (fun x => gtb (fst (snd x)) tmax = false
                     /\ ltb (fst (snd x)) tmin = false) rest ->
    scan tmin tmax 0 prev rest (D ++ [(j, [s])]) j
    = D ++ [(j, [s])]
        ++ combine (seq (S j) (length rest)) (map (fun x => [snd x]) rest).
Proof.
  induction rest as [|[ix [ti pi]] rest IH];
    intros prev D j s HD Hsorted Hwin.
  - simpl. reflexivity.
  - inversion Hsorted as [|? ? Hs' Hhd]; subst.
    inversion Hhd as [|? ? Hlt]; subst.
    inversion Hwin as [|? ? [Hmax Hmin] Hwin']; subst.
    cbn [fst snd] in *.
    cbn [scan]. rewrite Hmax, Hmin.
    replace (ix - 0 >? prev) with true by (symmetry; apply Z.gtb_lt; lia).
    assert (Hfresh : ~ In (S j) (dict_keys (D ++ [(j, [s])]))).
    { rewrite dict_keys_app, in_app_iff. simpl.
      rewrite Forall_forall in HD. intros [Hin|[Hin|[]]].
      - apply HD in Hin. lia.
      - lia. }
    rewrite dict_set_fresh by exact Hfresh.
    rewrite dict_alter_last by exact Hfresh.
    cbn [app]. rewrite IH.
    + rewrite <- app_assoc. reflexivity.
    + rewrite dict_keys_app. apply Forall_app. split.
      * eapply Forall_impl; [|exact HD]. simpl. intros; lia.
      * repeat constructor.
    + exact Hs'.
    + exact Hwin'.
Qed.

(** C6, as the code has it.  With [stride = 0] a new peak is opened at
    every sample whose index exceeds its predecessor's.  For strictly
    increasing indices, all samples inside the time window, every sample
    is therefore a candidate peak of its own, whether or not the indices
    are contiguous; with [lmin <= 1 < lmax] and no rebinning these
    one-sample peaks are what [find_S12] returns. *)
Theorem find_S12_stride_zero_splits
        (p0 : R) (P' : list R) (i0 : Z) (index' : list Z)
        (tmin tmax : R) (lmin lmax rebin_stride : Z) :
  length P' = length index' ->
  Sorted Z.lt (i0 :: index') ->
  Forall (fun t => gtb t tmax = false /\ ltb t tmin = false)
         (time_from_index index') ->
  lmin <= 1 < lmax ->
  let T := time_from_index (i0 :: index') in
  let P := p0 :: P' in
  group_S12 tmin tmax 0 i0 (mul (of_Z 25) (of_Z i0)) p0
            (combine index' (combine (time_from_index index') P'))
  = reindexed (map (fun s => [s]) (combine T P))
  /\ find_S12 P (i0 :: index') tmin tmax lmin lmax 0 false rebin_stride
     = Ok (reindexed (map (fun s => ([fst s], [snd s])) (combine T P))).
Proof.
  intros Hlen Hsorted Hwin Hl T P.
  set (TP := combine (time_from_index index') P').
  assert (Hlen_TP : length TP = length index').
  { unfold TP, time_from_index. rewrite length_combine, length_map. lia. }
  assert (Hgroup :
    group_S12 tmin tmax 0 i0 (mul (of_Z 25) (of_Z i0)) p0 (combine index' TP)
    = reindexed (map (fun s => [s]) (combine T P))).
  { unfold group_S12. cbn [dict_set dict_alter Nat.eqb app].
    change [(0%nat, [(mul (of_Z 25) (of_Z i0), p0)])]
      with ([] ++ [(0%nat, [(mul (of_Z 25) (of_Z i0), p0)])]).
    rewrite (@scan_stride_zero tmin tmax (combine index' TP) i0 [] 0%nat
               (mul (of_Z 25) (of_Z i0), p0)).
    - unfold reindexed, T, P. cbn [time_from_index map combine length seq app].
      fold (time_from_index index'). fold TP. f_equal.
      rewrite length_map, length_combine, Hlen_TP, Nat.min_id, <- Hlen_TP.
      f_equal.
      rewrite <- (map_snd_zip index' TP Hlen_TP) at 2.
      rewrite map_map. reflexivity.
    - constructor.
    - rewrite map_fst_zip by exact Hlen_TP. exact Hsorted.
    - unfold TP. clear - Hwin Hlen. revert P' Hlen Hwin.
      induction index' as [|i l IH]; intros [|p P'] Hlen Hwin; simpl in *;
        try constructor; try discriminate.
      + inversion Hwin; subst. simpl. assumption.
      + inversion Hwin; subst. apply IH; [lia|assumption]. }
  split; [exact Hgroup|].
  destruct (find_S12_length_window p0 P' i0 index' tmin tmax lmin lmax 0
              false rebin_stride Hlen) as [Hfind _].
  cbv zeta in Hfind. unfold P. rewrite Hfind. fold TP. rewrite Hgroup.
  clear Hfind Hgroup.
  assert (Hgen : forall (l : list (sample (R := R))),
             kept_peaks lmin lmax (reindexed (map (fun s => [s]) l))
             = map (fun s => [s]) l).
  { intros l. unfold kept_peaks, reindexed, dict_values.
    assert (Hsnd : forall (A : Type) (vs : list A) n,
               map snd (combine (seq n (length vs)) vs) = vs).
    { induction vs as [|v vs IHv]; intros n; simpl; [reflexivity|].
      rewrite IHv. reflexivity. }
    rewrite Hsnd. induction l as [|s l IH]; simpl; [reflexivity|].
    replace (length_ok lmin lmax 1) with true
      by (symmetry; apply length_ok_iff; simpl; lia).
    rewrite IH. reflexivity. }
  rewrite Hgen.
  assert (HmapM : forall (l : list (sample (R := R))),
             mapM (finish_peak false rebin_stride) (map (fun s => [s]) l)
             = Ok (map (fun s => ([fst s], [snd s])) l)).
  { induction l as [|s l IH]; simpl; [reflexivity|].
    rewrite IH. reflexivity. }
  rewrite HmapM. reflexivity.
Qed.

End StrideZero.

(** ** [rebin_waveform] *)

Section SumRange.
Context {R : Type} `{Arith R}.

Lemma skipn_nth_cons {A} (a : list A) (d : A) :
  forall j, (j < length a)%nat -> skipn j a = nth j a d :: skipn (S j) a.
Proof.
  induction a as [|x a IH]; intros [|j] Hj; simpl in *; try lia.
  - reflexivity.
  - apply IH. lia.
Qed.

(** The indexed accumulation loop adds up the slice [a[j : j + len]]. *)
Lemma sum_range_slice (a : list R) :
  forall len j acc,
    (j + len <= length a)%nat ->
    fold_left (fun acc k => add acc (nth k a zero)) (seq j len) acc
    = fold_left add (firstn len (skipn j a)) acc.
Proof.
  induction len as [|len IH]; intros j acc Hj; [reflexivity|].
  rewrite (skipn_nth_cons a zero) by lia. simpl.
  apply IH. lia.
Qed.

Lemma length_array_set {A} (a : list A) :
  forall i v, length (array_set a i v) = length a.
Proof.
  induction a as [|x a IH]; intros [|i] v; simpl; auto.
Qed.

Lemma nth_array_set_other {A} (a : list A) (d : A) :
  forall i k v, k <> i -> nth k (array_set a i v) d = nth k a d.
Proof.
  induction a as [|x a IH]; intros [|i] [|k] v Hk; simpl; auto; try lia.
Qed.

End SumRange.

Section RebinExact.
Local Open Scope Q_scope.

Lemma Qsum_from (l : list Q) :
  forall a, fold_left Qplus l a == a + Qsum l.
Proof.
  unfold Qsum. induction l as [|x l IH]; intros a; simpl.
  - ring.
  - rewrite IH, (IH (0 + x)). ring.
Qed.

Lemma Qsum_cons x l : Qsum (x :: l) == x + Qsum l.
Proof. unfold Qsum at 1. simpl. rewrite Qsum_from. ring. Qed.

Lemma Qsum_app l1 l2 : Qsum (l1 ++ l2) == Qsum l1 + Qsum l2.
Proof.
  induction l1 as [|x l1 IH]; simpl.
  - unfold Qsum at 2. simpl. ring.
  - rewrite !Qsum_cons, IH. ring.
Qed.

Lemma Qsum_array_set (a : list Q) :
  forall i v, (i < length a)%nat ->
    Qsum (array_set a i v) == Qsum a - nth i a 0 + v.
Proof.
  induction a as [|x a IH]; intros [|i] v Hi; simpl in *; try lia.
  - rewrite !Qsum_cons. ring.
  - rewrite !Qsum_cons, IH by lia. ring.
Qed.

Lemma sum_range_Qsum (a : list Q) j len :
  (j + len <= length a)%nat ->
  sum_range a j len = fold_left Qplus (firstn len (skipn j a)) 0.
Proof.
  intros Hj. unfold sum_range.
  rewrite (sum_range_slice (R := Q)) by exact Hj. reflexivity.
Qed.

(** After [n] rounds the slots [i .. i+n-1] of [E] hold the sums of the
    [n] chunks that start at [j]; the later slots are untouched. *)
Lemma rebin_loop_total (t e : list Q) (s : nat) :
  forall n i j T E,
    (i + n <= length E)%nat ->
    (forall k, (i <= k)%nat -> nth k E 0 = 0) ->
    (j + n * s <= length e)%nat ->
    exists T' E',
      rebin_loop t e s n i j T E = (T', E', (j + n * s)%nat)
      /\ length E' = length E
      /\ (forall k, (i + n <= k)%nat -> nth k E' 0 = 0)
      /\ Qsum E' == Qsum E + Qsum (firstn (n * s) (skipn j e)).
Proof.
  induction n as [|n IH]; intros i j T E Hi Hzero Hj.
  - exists T, E. simpl. rewrite Nat.add_0_r. repeat split; auto.
    + intros k Hk. apply Hzero. lia.
    + unfold Qsum at 3. simpl. ring.
  - cbn [rebin_loop].
    set (E1 := array_set E i (sum_range e j s)).
    set (T1 := array_set T i _).
    destruct (IH (S i) (j + s)%nat T1 E1) as (T' & E' & Hloop & Hlen & Hz & Hsum).
    + unfold E1. rewrite length_array_set. lia.
    + intros k Hk. unfold E1. rewrite nth_array_set_other by lia.
      apply Hzero. lia.
    + simpl in Hj. lia.
    + exists T', E'. rewrite Hloop. repeat split.
      * f_equal. simpl. lia.
      * rewrite Hlen. unfold E1. apply length_array_set.
      * intros k Hk. apply Hz. lia.
      * rewrite Hsum. unfold E1. rewrite Qsum_array_set by lia.
        rewrite (Hzero i) by lia.
        rewrite sum_range_Qsum by (simpl in Hj; lia).
        fold (Qsum (firstn s (skipn j e))).
        replace (S n * s)%nat with (s + n * s)%nat by reflexivity.
        rewrite <- (firstn_skipn s (firstn (s + n * s) (skipn j e))).
        rewrite Qsum_app.
        rewrite firstn_firstn, Nat.min_l by lia.
        rewrite skipn_firstn_comm, skipn_skipn.
        replace (s + n * s - s)%nat with (n * s)%nat by lia.
        replace (s + j)%nat with (j + s)%nat by lia.
        ring.
Qed.

End RebinExact.

Section RebinConservation.
Local Open Scope Q_scope.

Lemma Qsum_repeat_zero n : Qsum (repeat 0 n) == 0.
Proof.
  induction n as [|n IH]; simpl.
  - reflexivity.
  - rewrite Qsum_cons, IH. ring.
Qed.

Lemma nth_repeat_zero n k : nth k (repeat 0 n) 0 = 0.
Proof.
  revert k. induction n as [|n IH]; intros [|k]; simpl; auto.
Qed.

(** C5, in exact arithmetic.  For time and energy arrays of equal length
    and a positive stride, [rebin_waveform] returns, and the energies it
    returns add up to the total of the input energies, a final partial
    chunk included. *)
Theorem rebin_waveform_conserves_energy_exact
        (t e : list Q) (stride : Z) :
  length t = length e ->
  (0 < stride)%Z ->
  exists T E,
    rebin_waveform t e stride = Ok (T, E) /\ Qsum E == Qsum e.
Proof.
  intros Hlen Hstride. unfold rebin_waveform.
  rewrite Hlen, Nat.eqb_refl. cbn [negb].
  replace (stride =? 0)%Z with false by (symmetry; apply Z.eqb_neq; lia).
  set (len := Z.of_nat (length e)).
  set (n := (len / stride)%Z). set (r := (len mod stride)%Z).
  assert (Hdiv : len = (stride * n + r)%Z) by (apply Z.div_mod; lia).
  assert (Hr : (0 <= r < stride)%Z) by (apply Z.mod_pos_bound; lia).
  assert (Hn : (0 <= n)%Z) by (apply Z.div_pos; lia).
  set (s := Z.to_nat stride). set (nn := Z.to_nat n).
  assert (Hlength : length e = (nn * s + Z.to_nat r)%nat).
  { unfold nn, s. apply Nat2Z.inj. fold len.
    rewrite Nat2Z.inj_add, Nat2Z.inj_mul, !Z2Nat.id by lia. lia. }
  set (lenb := if (0 <? r)%Z then (n + 1)%Z else n).
  assert (Hlenb : (n <= lenb)%Z) by (unfold lenb; destruct (0 <? r)%Z; lia).
  replace (lenb <? 0)%Z with false by (symmetry; apply Z.ltb_ge; lia).
  set (E0 := repeat (zero (R := Q)) (Z.to_nat lenb)).
  destruct (@rebin_loop_total t e s nn 0%nat 0%nat E0 E0)
    as (T' & E' & Hloop & HlenE & Hzero & Hsum).
  - unfold E0. rewrite repeat_length. unfold nn. lia.
  - intros k _. apply nth_repeat_zero.
  - lia.
  - rewrite Hloop. cbn [Nat.add] in *.
    assert (HE0 : Qsum E0 == 0) by apply Qsum_repeat_zero.
    rewrite HE0 in Hsum. simpl skipn in Hsum.
    destruct (0 <? r)%Z eqn:Hrpos.
    + eexists _, _. split; [reflexivity|].
      rewrite Qsum_array_set.
      * rewrite Hzero by (fold nn; lia). fold nn. rewrite Hsum.
        rewrite sum_range_Qsum by lia.
        fold (Qsum (firstn (length e - nn * s) (skipn (nn * s) e))).
        rewrite (firstn_all2 (n := length e - nn * s) (skipn (nn * s) e))
          by (rewrite length_skipn; apply Nat.le_refl).
        rewrite <- (firstn_skipn (nn * s) e) at 3.
        rewrite Qsum_app. ring.
      * rewrite HlenE. unfold E0. rewrite repeat_length.
        apply Z.ltb_lt in Hrpos. unfold lenb. fold nn.
        replace (0 <? r)%Z with true by (symmetry; apply Z.ltb_lt; lia).
        unfold nn. lia.
    + eexists _, _. split; [reflexivity|].
      apply Z.ltb_ge in Hrpos.
      rewrite Hsum, firstn_all2 by lia. ring.
Qed.

End RebinConservation.

(** The conservation theorem on a waveform with a partial last chunk. *)
Lemma rebin_waveform_conserves_energy_exact_witness :
  exists T E,
    rebin_waveform [1; 2; 3; 4; 5]%Q [3; 1; 4; 1; 5]%Q 2 = Ok (T, E)
    /\ (Qsum E == Qsum [3; 1; 4; 1; 5])%Q.
Proof.
  apply (@rebin_waveform_conserves_energy_exact
           [1; 2; 3; 4; 5]%Q [3; 1; 4; 1; 5]%Q 2); [reflexivity | lia].
Defined.

(** C5, in binary64.  The four energies 2^53, 1, 1, 1 add up, left to
    right, to 2^53 (each [+ 1] is rounded away); rebinned with stride 2
    they become 2^53 and 2, which add up to 2^53 + 2. *)
Lemma rebin_waveform_float_total_differs :
  rebin_waveform [0; 25; 50; 75]%float [0x1p53; 1; 1; 1]%float 2
  = Ok ([12.5; 62.5]%float, [0x1p53; 2]%float)
  /\ fsum [0x1p53; 2]%float = 9007199254740994%float
  /\ fsum [0x1p53; 1; 1; 1]%float = 9007199254740992%float
  /\ PrimFloat.eqb (fsum [0x1p53; 2]%float) (fsum [0x1p53; 1; 1; 1]%float)
     = false.
Proof.
  repeat split; vm_compute; reflexivity.
Qed.

(** ** [find_S12]: concrete runs *)

(** C6 as stated fails.  With [stride = 0] the two contiguous indices 5
    and 6 are split: the result has two peaks of one sample each, not one
    peak of two samples. *)
Lemma find_S12_stride_zero_contiguous_split :
  find_S12 [1; 2]%float [5; 6] 0%float 1e6%float 1 100 0 false 40
  = Ok [(0%nat, ([125]%float, [1]%float));
        (1%nat, ([150]%float, [2]%float))]
  /\ find_S12 [1; 2]%float [5; 6] 0%float 1e6%float 1 100 0 false 40
     <> Ok [(0%nat, ([125; 150]%float, [1; 2]%float))].
Proof.
  split.
  - vm_compute. reflexivity.
  - vm_compute. intros Heq. discriminate Heq.
Qed.

(** Stride zero on indices 5, 6, 9: three peaks of one sample. *)
Lemma find_S12_stride_zero_splits_witness :
  find_S12 [1; 2; 3]%Q [5; 6; 9] 0%Q 1000000%Q 1 100 0 false 40
  = Ok (reindexed
          (map (fun s => ([fst s], [snd s]))
               (combine (time_from_index [5; 6; 9]) [1; 2; 3]%Q))).
Proof.
  apply (@find_S12_stride_zero_splits Q _ 1%Q [2; 3]%Q 5 [6; 9]
           0%Q 1000000%Q 1 100 40).
  - reflexivity.
  - repeat constructor.
  - repeat constructor.
  - lia.
Defined.


(** ** [create_deconvolution_df]: the energy cut *)

Section EnergyCut.
Context {R : Type} `{Arith R}.

(** Selecting with the mask [map keep deconv_e] column by column and
    putting the columns side by side gives the rows of the bins that
    satisfy [keep]. *)
Lemma frame_mask_select (h : cdst_row) (keep : R -> bool) :
  forall deconv_e px py dfE dfX dfY,
    length px = length deconv_e ->
    length py = length deconv_e ->
    mask_select deconv_e (map keep deconv_e) = Ok dfE ->
    mask_select px (map keep deconv_e) = Ok dfX ->
    mask_select py (map keep deconv_e) = Ok dfY ->
    frame (cdst_event h) (cdst_npeak h) dfX dfY
          (repeat (cdst_Z h) (length dfE)) dfE
    = retained_rows h keep deconv_e px py.
Proof.
  unfold mask_select, retained_rows.
  intros deconv_e px py dfE dfX dfY Hx Hy.
  rewrite !length_map, Hx, Hy, Nat.eqb_refl.
  intros HE HX HY. injection HE as <-. injection HX as <-. injection HY as <-.
  revert px py Hx Hy.
  induction deconv_e as [|v d IH]; intros [|x px] [|y py] Hx Hy;
    simpl in *; try discriminate; [reflexivity|].
  destruct (keep v); simpl.
  - f_equal. apply IH; lia.
  - apply IH; lia.
Qed.

Lemma mask_select_ok {A} (a : list A) (keep : R -> bool) deconv_e :
  length a = length deconv_e ->
  exists s, mask_select a (map keep deconv_e) = Ok s.
Proof.
  intros Hlen. unfold mask_select.
  rewrite length_map, Hlen, Nat.eqb_refl. eauto.
Qed.

Lemma create_deconvolution_df_abs h hits deconv_e px py e_cut :
  length px = length deconv_e ->
  length py = length deconv_e ->
  create_deconvolution_df (h :: hits) deconv_e [px; py] abs e_cut 2
  = Ok (retained_rows h (fun v => gtb v e_cut) deconv_e px py).
Proof.
  intros Hx Hy. unfold create_deconvolution_df. cbn [bind].
  destruct (mask_select_ok deconv_e (fun v => gtb v e_cut) deconv_e eq_refl)
    as [dfE HE].
  destruct (mask_select_ok px (fun v => gtb v e_cut) deconv_e Hx) as [dfX HX].
  destruct (mask_select_ok py (fun v => gtb v e_cut) deconv_e Hy) as [dfY HY].
  rewrite HE. cbn. rewrite HX. cbn. rewrite HY. cbn.
  f_equal. eapply frame_mask_select; eassumption.
Qed.

Lemma create_deconvolution_df_rel h hits deconv_e px py e_cut m :
  length px = length deconv_e ->
  length py = length deconv_e ->
  array_max deconv_e = Ok m ->
  create_deconvolution_df (h :: hits) deconv_e [px; py] rel e_cut 2
  = Ok (retained_rows h (fun v => gtb (div v m) e_cut) deconv_e px py).
Proof.
  intros Hx Hy Hm. unfold create_deconvolution_df. rewrite Hm. cbn [bind].
  destruct (mask_select_ok deconv_e (fun v => gtb (div v m) e_cut)
                           deconv_e eq_refl) as [dfE HE].
  destruct (mask_select_ok px (fun v => gtb (div v m) e_cut) deconv_e Hx)
    as [dfX HX].
  destruct (mask_select_ok py (fun v => gtb (div v m) e_cut) deconv_e Hy)
    as [dfY HY].
  rewrite HE. cbn. rewrite HX. cbn. rewrite HY. cbn.
  f_equal. eapply frame_mask_select; eassumption.
Qed.

(** What [ordered_image] gives on the values of the image. *)
Lemma ordered_image_facts (l : list R) :
  ordered_image l = true ->
  (forall x, In x l -> isnan x = false)
  /\ (forall x y, In x l -> In y l -> leb x y = true \/ leb y x = true)
  /\ (forall x y z, In x l -> In y l -> In z l ->
         leb x y = true -> leb y z = true -> leb x z = true).
Proof.
  unfold ordered_image. rewrite !andb_true_iff.
  intros [[Hnan Htot] Htrans].
  rewrite forallb_forall in Hnan, Htot, Htrans. split; [|split].
  - intros x Hx. apply negb_true_iff. apply Hnan. exact Hx.
  - intros x y Hx Hy. specialize (Htot x Hx).
    rewrite forallb_forall in Htot. apply orb_true_iff. apply Htot. exact Hy.
  - intros x y z Hx Hy Hz Hxy Hyz. specialize (Htrans x Hx).
    rewrite forallb_forall in Htrans. specialize (Htrans y Hy).
    rewrite forallb_forall in Htrans. specialize (Htrans z Hz).
    rewrite Hxy, Hyz in Htrans. exact Htrans.
Qed.

(** On an ordered image the running [np.maximum] ends on a value of the
    image that neither the start value nor any later value exceeds. *)
Lemma fold_maximum_ordered (l : list R) :
  ordered_image l = true ->
  forall rest acc,
    In acc l -> incl rest l ->
    In (fold_left maximum rest acc) l
    /\ leb acc (fold_left maximum rest acc) = true
    /\ Forall (fun v => leb v (fold_left maximum rest acc) = true) rest.
Proof.
  intros Hord. destruct (ordered_image_facts l Hord) as (Hnan & Htot & Htrans).
  assert (Hrefl : forall x, In x l -> leb x x = true).
  { intros x Hx. destruct (Htot x x Hx Hx); assumption. }
  induction rest as [|y rest IH]; intros acc Hacc Hincl; cbn [fold_left].
  - split; [exact Hacc|]. split; [apply Hrefl; exact Hacc|constructor].
  - assert (Hy : In y l) by (apply Hincl; left; reflexivity).
    assert (Hrest : incl rest l)
      by (intros v Hv; apply Hincl; right; exact Hv).
    assert (Hmax : In (maximum acc y) l
                   /\ leb acc (maximum acc y) = true
                   /\ leb y (maximum acc y) = true).
    { unfold maximum, geb. rewrite (Hnan acc Hacc), orb_false_r.
      destruct (leb y acc) eqn:Hya.
      - split; [exact Hacc|]. split; [apply Hrefl; exact Hacc|exact Hya].
      - split; [exact Hy|]. split; [|apply Hrefl; exact Hy].
        destruct (Htot acc y Hacc Hy) as [Hle|Hle]; [exact Hle|congruence]. }
    destruct Hmax as (Hin & Hacc_le & Hy_le).
    destruct (IH (maximum acc y) Hin Hrest) as (Hm & Hle & Hall).
    split; [exact Hm|]. split.
    + apply (Htrans acc (maximum acc y)); assumption.
    + constructor; [|exact Hall].
      apply (Htrans y (maximum acc y)); assumption.
Qed.

(** On a non-empty ordered image [array_max] returns the maximum. *)
Lemma array_max_ordered (deconv_e : list R) :
  deconv_e <> [] ->
  ordered_image deconv_e = true ->
  exists m, array_max deconv_e = Ok m /\ is_image_maximum m deconv_e.
Proof.
  intros Hne Hord. destruct deconv_e as [|x a]; [contradiction|].
  cbn [array_max]. eexists. split; [reflexivity|].
  destruct (@fold_maximum_ordered (x :: a) Hord a x) as (Hin & Hle & Hall).
  - left. reflexivity.
  - intros v Hv. right. exact Hv.
  - split; [exact Hin|]. constructor; assumption.
Qed.

End EnergyCut.

(** Every image of rationals is ordered. *)
Lemma ordered_image_Q (l : list Q) : ordered_image l = true.
Proof.
  unfold ordered_image. rewrite !andb_true_iff. repeat split.
  - apply forallb_forall. intros x _. unfold isnan. cbn [eqb Q_arith].
    rewrite Qeq_bool_refl. reflexivity.
  - apply forallb_forall. intros x _. apply forallb_forall. intros y _.
    cbn [leb Q_arith]. apply orb_true_iff. rewrite !Qle_bool_iff.
    destruct (Qlt_le_dec x y) as [Hlt|Hle];
      [left; apply Qlt_le_weak; exact Hlt | right; exact Hle].
  - apply forallb_forall. intros x _. apply forallb_forall. intros y _.
    apply forallb_forall. intros z _. cbn [leb Q_arith].
    destruct (Qle_bool x y) eqn:Hxy; [|reflexivity].
    destruct (Qle_bool y z) eqn:Hyz; [|reflexivity].
    cbn [andb implb]. apply Qle_bool_iff.
    apply Qle_bool_iff in Hxy. apply Qle_bool_iff in Hyz.
    eapply Qle_trans; eassumption.
Qed.

(** C2.  In two dimensions, on a non-empty slice and with position arrays
    as long as the image, [create_deconvolution_df] returns one row per
    retained bin, in image order, where
    - in absolute mode a bin is retained exactly when its value is
      [> e_cut];
    - in relative mode, on a non-empty image whose values are ordered
      (no NaN), a bin is retained exactly when its value divided by the
      maximum of the image, a value of the image that no value exceeds,
      is [> e_cut]; every image of rationals is ordered;
    - in relative mode on any image, the divisor is what [deconv_e.max()]
      returns.
    In binary64, for the image [0.1, 0.5, 1.0]: absolute mode with
    [e_cut = 0.5] retains the value 1.0 only, and relative mode with
    [e_cut = 0.4] retains the values 0.5 and 1.0. *)
Theorem create_deconvolution_df_energy_cut :
  (forall (R : Type) (A : Arith R) (h : cdst_row) hits deconv_e px py e_cut,
      length px = length deconv_e ->
      length py = length deconv_e ->
      create_deconvolution_df (h :: hits) deconv_e [px; py] abs e_cut 2
      = Ok (retained_rows h (fun v => gtb v e_cut) deconv_e px py))
  /\ (forall (R : Type) (A : Arith R) (h : cdst_row) hits deconv_e px py
             e_cut,
         length px = length deconv_e ->
         length py = length deconv_e ->
         deconv_e <> [] ->
         ordered_image deconv_e = true ->
         exists m,
           is_image_maximum m deconv_e
           /\ create_deconvolution_df (h :: hits) deconv_e [px; py]
                                      rel e_cut 2
              = Ok (retained_rows h (fun v => gtb (div v m) e_cut)
                                  deconv_e px py))
  /\ (forall deconv_e : list Q, ordered_image deconv_e = true)
  /\ (forall (R : Type) (A : Arith R) (h : cdst_row) hits deconv_e px py
             e_cut m,
         length px = length deconv_e ->
         length py = length deconv_e ->
         array_max deconv_e = Ok m ->
         create_deconvolution_df (h :: hits) deconv_e [px; py] rel e_cut 2
         = Ok (retained_rows h (fun v => gtb (div v m) e_cut)
                             deconv_e px py))
  /\ column_E (create_deconvolution_df
                 [one_hit] [0.1; 0.5; 1.0]%float
                 [[0; 1; 2]%float; [0; 0; 0]%float] abs 0.5%float 2)
     = Ok [1.0]%float
  /\ column_E (create_deconvolution_df
                 [one_hit] [0.1; 0.5; 1.0]%float
                 [[0; 1; 2]%float; [0; 0; 0]%float] rel 0.4%float 2)
     = Ok [0.5; 1.0]%float.
Proof.
  split; [|split; [|split; [|split; [|split]]]].
  - intros. apply create_deconvolution_df_abs; assumption.
  - intros R A h hits deconv_e px py e_cut Hx Hy Hne Hord.
    destruct (@array_max_ordered R A deconv_e Hne Hord) as (m & Hm & Hmax).
    exists m. split; [exact Hmax|].
    apply create_deconvolution_df_rel; assumption.
  - exact ordered_image_Q.
  - intros. apply create_deconvolution_df_rel; assumption.
  - vm_compute. reflexivity.
  - vm_compute. reflexivity.
Qed.

(** The two cuts of the general statement at images in binary64: the
    absolute cut at [0.1, 0.5, 1.0], and the relative cut at
    [1.0, 0.5, 0.1], whose maximum comes first. *)
Lemma create_deconvolution_df_energy_cut_witness :
  create_deconvolution_df
    [one_hit] [0.1; 0.5; 1.0]%float
    [[0; 1; 2]%float; [0; 0; 0]%float] abs 0.5%float 2
  = Ok (retained_rows one_hit (fun v => gtb v 0.5%float)
                      [0.1; 0.5; 1.0]%float [0; 1; 2]%float [0; 0; 0]%float)
  /\ exists m,
       is_image_maximum m [1.0; 0.5; 0.1]%float
       /\ create_deconvolution_df
            [one_hit] [1.0; 0.5; 0.1]%float
            [[0; 1; 2]%float; [0; 0; 0]%float] rel 0.4%float 2
          = Ok (retained_rows one_hit (fun v => gtb (div v m) 0.4%float)
                              [1.0; 0.5; 0.1]%float
                              [0; 1; 2]%float [0; 0; 0]%float).
Proof.
  split.
  - apply (proj1 create_deconvolution_df_energy_cut); reflexivity.
  - apply (proj1 (proj2 create_deconvolution_df_energy_cut));
      [reflexivity | reflexivity | discriminate | vm_compute; reflexivity].
Defined.

(** ** [distribute_energy] *)

Section DistributeExact.
Local Open Scope Q_scope.

Lemma Qsum_scaled (c : Q) (l : list Q) :
  Qsum (map (fun x => x * c) l) == Qsum l * c.
Proof.
  induction l as [|x l IH]; simpl.
  - unfold Qsum. simpl. ring.
  - rewrite !Qsum_cons, IH. ring.
Qed.

Lemma Qsum_ext (f g : Q -> Q) (l : list Q) :
  (forall x, f x == g x) -> Qsum (map f l) == Qsum (map g l).
Proof.
  intros Hfg. induction l as [|x l IH]; simpl.
  - reflexivity.
  - rewrite !Qsum_cons, IH, Hfg. reflexivity.
Qed.

(** No rational is NaN: on rationals [series_sum] is the plain total. *)
Lemma series_sum_Qsum (l : list Q) : series_sum l = Qsum l.
Proof.
  unfold series_sum, Qsum. f_equal.
  induction l as [|x l IH]; simpl; [reflexivity|].
  unfold isnan. cbn [eqb Q_arith]. rewrite Qeq_bool_refl. simpl.
  f_equal. exact IH.
Qed.

(** C1, in exact arithmetic.  When the deconvolved energies of a peak
    have a non-zero sum, the energies written by [distribute_energy] add
    up to the sum of the sensor energies of the selected type, however
    many rows the deconvolved frame has. *)
Theorem distribute_energy_conserves_exact
        (df : list deco_row) (cdst : list cdst_row)
        (energy_type : HitEnergy) :
  ~ series_sum (map deco_E df) == 0 ->
  series_sum (map deco_E (distribute_energy df cdst energy_type))
  == series_sum (map (energy energy_type) cdst).
Proof.
  intros Hnz. unfold distribute_energy.
  rewrite !series_sum_Qsum in *.
  set (s := Qsum (map deco_E df)) in *.
  set (tot := Qsum (map (energy energy_type) cdst)).
  rewrite map_map. cbn [set_E deco_E mul div Q_arith].
  rewrite <- (map_map deco_E (fun x => x / s * tot)).
  rewrite (Qsum_ext (fun x => x / s * tot) (fun x => x * (tot / s))).
  - rewrite Qsum_scaled. fold s. field. exact Hnz.
  - intros x. field. exact Hnz.
Qed.

End DistributeExact.

(** Two deconvolved hits of energies 1 and 2, sensors of total energy 7. *)
Lemma distribute_energy_conserves_exact_witness :
  let df := [deco_of_energy 1%Q; deco_of_energy 2%Q] in
  let cdst := [cdst_of_energy 3%Q; cdst_of_energy 4%Q] in
  (~ series_sum (map deco_E df) == 0
   /\ series_sum (map deco_E (distribute_energy df cdst Ec))
      == series_sum (map (energy Ec) cdst))%Q.
Proof.
  cbv zeta.
  assert (Hnz : ~ (series_sum
                     (map deco_E [deco_of_energy 1%Q; deco_of_energy 2%Q])
                   == 0)%Q).
  { vm_compute. intros Heq. discriminate Heq. }
  split; [exact Hnz|].
  exact (@distribute_energy_conserves_exact
           [deco_of_energy 1%Q; deco_of_energy 2%Q]
           [cdst_of_energy 3%Q; cdst_of_energy 4%Q] Ec Hnz).
Defined.

(** C1, in binary64.  Deconvolved energies 1 and 2 and sensor energies 3
    and 4 (total 7): the rescaled energies are 1/3*7 and 2/3*7, rounded to
    2.333333333333333 and 4.666666666666666, and their sum is
    6.999999999999999, not 7. *)
Lemma distribute_energy_float_sum_differs :
  let df := [deco_of_energy 1%float; deco_of_energy 2%float] in
  let cdst := [cdst_of_energy 3%float; cdst_of_energy 4%float] in
  series_sum (map deco_E df) = 3%float
  /\ series_sum (map (energy Ec) cdst) = 7%float
  /\ map deco_E (distribute_energy df cdst Ec)
     = [0x1.2aaaaaaaaaaaap+1; 0x1.2aaaaaaaaaaaap+2]%float
  /\ fsum (map deco_E (distribute_energy df cdst Ec))
     = 0x1.bffffffffffffp+2%float
  /\ PrimFloat.eqb (fsum (map deco_E (distribute_energy df cdst Ec)))
                   (fsum (map (energy Ec) cdst))
     = false.
Proof.
  cbv zeta. repeat split; vm_compute; reflexivity.
Qed.

(** ** [deconvolve_hits]: the longitudinal coordinate of the PSF lookup *)

Section PsfLookup.
Context {R : Type} `{Arith R}.
Variable psf_row : Type.
Variables psf_x psf_y psf_z : psf_row -> R.
Variable image : Type.
Variable flatten : image -> list R.
Variable find_nearest : list R -> list R -> R.
Variable deconvolution :
  list (list R) -> list R -> list psf_row -> image * list (list R).
Variable gaus : R -> list psf_row -> image.
Variable richardson_lucy : image -> image -> Z -> R -> image.
Variable nan_to_num : image -> image.
Variable psfs : list psf_row.
Variables (e_cut iteration_tol : R) (n_iterations_g n_dim : Z).
Variable cut_type : CutType.

Let lookup := psf_lookup psf_x psf_y psf_z find_nearest psfs.
Let run mode :=
  deconvolve_hits psf_x psf_y psf_z flatten find_nearest deconvolution gaus
                  richardson_lucy nan_to_num psfs e_cut iteration_tol
                  n_iterations_g n_dim mode cut_type.

(** The rows of the table that [psf_lookup] selects: those whose [z],
    [x] and [y] equal the table values nearest to the requested
    coordinates. *)
Lemma psf_lookup_In (zz : R) (xx yy : list R) (p : psf_row) :
  In p (lookup zz xx yy)
  <-> In p psfs
      /\ eqb (psf_z p) (find_nearest (map psf_z psfs) [zz]) = true
      /\ eqb (psf_x p) (find_nearest (map psf_x psfs) xx) = true
      /\ eqb (psf_y p) (find_nearest (map psf_y psfs) yy) = true.
Proof.
  unfold lookup, psf_lookup. rewrite filter_In, !andb_true_iff. tauto.
Qed.

(** C8.  The PSF handed to the deconvolution of a slice is looked up at
    the slice's [z] in joint mode and at 0 in separate mode (where [z]
    enters only the Gaussian kernel of the second pass); the transverse
    coordinates are the slice's [Xpeak] and [Ypeak] in both modes.  The
    rows of that PSF are the rows of the table whose [z] equals the table
    value nearest to the slice's [z] in joint mode, and nearest to 0 in
    separate mode, and whose [x] and [y] equal the table values nearest
    to [Xpeak] and [Ypeak]. *)
Theorem deconvolve_hits_psf_z (df : list cdst_row) (z : R) :
  let xx := unique (map cdst_Xpeak df) in
  let yy := unique (map cdst_Ypeak df) in
  let dims := dimensions_of n_dim df in
  let NormQ := map cdst_NormQ df in
  let at_z (zz : R) (p : psf_row) :=
    In p psfs
    /\ eqb (psf_z p) (find_nearest (map psf_z psfs) [zz]) = true
    /\ eqb (psf_x p) (find_nearest (map psf_x psfs) xx) = true
    /\ eqb (psf_y p) (find_nearest (map psf_y psfs) yy) = true in
  slice_psf psf_x psf_y psf_z find_nearest psfs joint df z = lookup z xx yy
  /\ slice_psf psf_x psf_y psf_z find_nearest psfs separate df z
     = lookup (of_Z 0) xx yy
  /\ run joint df z
     = (let '(deconv_image, pos) := deconvolution dims NormQ (lookup z xx yy) in
        create_deconvolution_df df (flatten deconv_image) pos
                                cut_type e_cut n_dim)
  /\ run separate df z
     = (let '(deconv_image, pos) :=
          deconvolution dims NormQ (lookup (of_Z 0) xx yy) in
        create_deconvolution_df
          df
          (flatten (nan_to_num
                      (richardson_lucy deconv_image
                                       (gaus z (lookup (of_Z 0) xx yy))
                                       n_iterations_g iteration_tol)))
          pos cut_type e_cut n_dim)
  /\ (forall p,
         In p (slice_psf psf_x psf_y psf_z find_nearest psfs joint df z)
         <-> at_z z p)
  /\ (forall p,
         In p (slice_psf psf_x psf_y psf_z find_nearest psfs separate df z)
         <-> at_z (of_Z 0) p)
  /\ (forall zz p, In p (lookup zz xx yy) <-> at_z zz p).
Proof.
  intros xx yy dims NormQ at_z.
  split; [reflexivity|]. split; [reflexivity|].
  split; [reflexivity|]. split; [reflexivity|].
  split; [|split].
  - intros p. apply (psf_lookup_In z xx yy p).
  - intros p. apply (psf_lookup_In (of_Z 0) xx yy p).
  - intros zz p. apply (psf_lookup_In zz xx yy p).
Qed.

End PsfLookup.

(** ** Track ordering *)

Section StableSort.
Local Open Scope Q_scope.
Context {A : Type} (key : A -> Q).


Lemma Qltb_lt x y : Qltb x y = true <-> x < y.
Proof.
  unfold Qltb. rewrite negb_true_iff, <- not_true_iff_false, Qle_bool_iff.
  split; [apply Qnot_le_lt | apply Qlt_not_le].
Qed.

Lemma Qltb_ge x y : Qltb x y = false <-> y <= x.
Proof.
  unfold Qltb. rewrite negb_false_iff, Qle_bool_iff. reflexivity.
Qed.

Lemma insert_sorted_perm x l :
  Permutation (insert_sorted key Qltb x l) (x :: l).
Proof.
  induction l as [|y l IH]; simpl; [reflexivity|].
  destruct (Qltb (key y) (key x)); [|reflexivity].
  rewrite IH. apply perm_swap.
Qed.

Lemma sorted_asc_perm l : Permutation (sorted_asc key Qltb l) l.
Proof.
  induction l as [|x l IH]; simpl; [reflexivity|].
  rewrite insert_sorted_perm, IH. reflexivity.
Qed.







Lemma sorted_reverse_perm l : Permutation (sorted key Qltb l true) l.
Proof.
  unfold sorted. rewrite <- Permutation_rev, sorted_asc_perm.
  symmetry. apply Permutation_rev.
Qed.




End StableSort.

Section TrackOrder.
Local Open Scope Q_scope.
Variables (hit geometry_info : Type).
Variable geometry : track (R := Q) hit -> geometry_info.



Lemma enumerate_values {A} (l : list A) :
  forall c, map snd (enumerate c l) = l.
Proof.
  induction l as [|x l IH]; intros c; simpl; [reflexivity|].
  rewrite IH. reflexivity.
Qed.


End TrackOrder.


(** ** [find_S12]: index gaps inside a peak *)

Section GapInvariant.
Local Open Scope Q_scope.
Variables (tmin tmax : Q) (stride : Z).

Let bound : Q := 25 * inject_Z stride.
Let good (s12 : list (Q * Q)) : Prop := gaps_within bound (map fst s12).

Lemma gaps_within_snoc (pre : list (Q * Q)) t1 p1 t2 p2 :
  good (pre ++ [(t1, p1)]) -> t2 - t1 <= bound ->
  good ((pre ++ [(t1, p1)]) ++ [(t2, p2)]).
Proof.
  unfold good. induction pre as [|[t0 p0] pre IH]; intros Hg Hgap.
  - simpl. auto.
  - destruct pre as [|[t0' p0'] pre].
    + simpl in *. tauto.
    + simpl in *. destruct Hg as [H0 Hg]. split; [exact H0|].
      apply IH; assumption.
Qed.

Lemma index_gap_time_gap (ix prev : Z) :
  (ix - stride >? prev)%Z = false ->
  inject_Z 25 * inject_Z ix - inject_Z 25 * inject_Z prev <= bound.
Proof.
  intros Hgap. rewrite Z.gtb_ltb in Hgap. apply Z.ltb_ge in Hgap.
  unfold bound.
  change (25 * inject_Z stride) with (inject_Z 25 * inject_Z stride).
  rewrite <- !inject_Z_mult. unfold Qminus.
  rewrite <- inject_Z_opp, <- inject_Z_plus, <- Zle_Qle. lia.
Qed.

(** While no sample is skipped, the last member of the current peak is
    the array predecessor, so the gap test of the scan bounds the gap
    inside the peak. *)
Lemma scan_gaps :
  forall (rest : list (Z * (Q * Q))) prev D j pre p,
    Forall (fun k => (k < j)%nat) (dict_keys D) ->
    Forall good (dict_values D) ->
    good (pre ++ [(inject_Z 25 * inject_Z prev, p)]) ->
    Forall (fun x => fst (snd x) = inject_Z 25 * inject_Z (fst x)) rest ->
    Forall (fun x => Qltb (fst (snd x)) tmin = false) rest ->
    Forall good
           (dict_values
              (scan tmin tmax stride prev rest
                    (D ++ [(j, pre ++ [(inject_Z 25 * inject_Z prev, p)])])
                    j)).
Proof.
  induction rest as [|[ix [ti pi]] rest IH];
    intros prev D j pre p HD Hgood Hcur Htimes Hmin.
  - simpl. unfold dict_values. rewrite map_app. apply Forall_app.
    split; [exact Hgood|]. repeat constructor. exact Hcur.
  - inversion Htimes as [|? ? Hti Htimes']; subst.
    inversion Hmin as [|? ? Hmin1 Hmin']; subst.
    cbn [fst snd] in *. subst ti.
    cbn [scan].
    destruct (gtb (inject_Z 25 * inject_Z ix) tmax).
    { unfold dict_values. rewrite map_app. apply Forall_app.
      split; [exact Hgood|]. repeat constructor. exact Hcur. }
    change (ltb (inject_Z 25 * inject_Z ix) tmin)
      with (Qltb (inject_Z 25 * inject_Z ix) tmin).
    rewrite Hmin1.
    assert (Hfresh : forall v : list (Q * Q),
               ~ In (S j) (dict_keys (D ++ [(j, v)]))).
    { intros v. rewrite dict_keys_app, in_app_iff. simpl.
      rewrite Forall_forall in HD. intros [Hin|[Hin|[]]].
      - apply HD in Hin. lia.
      - lia. }
    assert (Hj : ~ In j (dict_keys D)).
    { rewrite Forall_forall in HD. intros Hin. apply HD in Hin. lia. }
    destruct (ix - stride >? prev)%Z eqn:Hgap.
    + rewrite dict_set_fresh by apply Hfresh.
      rewrite dict_alter_last by apply Hfresh.
      apply (IH ix (D ++ [(j, pre ++ [(inject_Z 25 * inject_Z prev, p)])])
                (S j) [] pi).
      * rewrite dict_keys_app. apply Forall_app. split.
        -- eapply Forall_impl; [|exact HD]. simpl. intros; lia.
        -- repeat constructor.
      * unfold dict_values. rewrite map_app. apply Forall_app.
        split; [exact Hgood|]. repeat constructor. exact Hcur.
      * unfold good. simpl. exact I.
      * exact Htimes'.
      * exact Hmin'.
    + rewrite dict_alter_last by exact Hj.
      apply (IH ix D j (pre ++ [(inject_Z 25 * inject_Z prev, p)]) pi).
      * exact HD.
      * exact Hgood.
      * apply gaps_within_snoc; [exact Hcur|].
        apply index_gap_time_gap. exact Hgap.
      * exact Htimes'.
      * exact Hmin'.
Qed.

(** When no sample after the first is earlier than [tmin], every
    candidate peak of [find_S12] has consecutive index gaps of at most
    [stride]. *)
Lemma group_S12_gaps (p0 : Q) (P' : list Q) (i0 : Z) (index' : list Z) :
  length P' = length index' ->
  Forall (fun t => Qltb t tmin = false) (time_from_index index') ->
  Forall good
         (dict_values
            (group_S12 tmin tmax stride i0 (inject_Z 25 * inject_Z i0) p0
                       (combine index' (combine (time_from_index index') P')))).
Proof.
  intros Hlen Hmin. unfold group_S12.
  cbn [dict_set dict_alter Nat.eqb app].
  apply (@scan_gaps (combine index' (combine (time_from_index index') P'))
                    i0 [] 0%nat [] p0).
  - constructor.
  - constructor.
  - unfold good. simpl. exact I.
  - clear Hmin. revert P' Hlen.
    induction index' as [|i l IH]; intros [|p P'] Hlen; simpl in *;
      try constructor; try discriminate.
    + reflexivity.
    + apply IH. lia.
  - revert P' Hlen Hmin.
    induction index' as [|i l IH]; intros [|p P'] Hlen Hmin; simpl in *;
      try constructor; try discriminate.
    + inversion Hmin; subst. assumption.
    + inversion Hmin; subst. apply IH; [lia|assumption].
Qed.

End GapInvariant.

(** C7 fails on the code.  Indices 0, 10, 11 with [tmin = 275], [stride = 4]
    and [lmin = 2]: the first sample (time 0) is stored without any test,
    the second (time 250) is skipped as earlier than [tmin], and the third
    (time 275) is compared with the skipped index 10, found within stride,
    and appended to peak 0.  The peak returned holds the samples of
    indices 0 and 11, whose gap of 11 exceeds the stride of 4. *)
Theorem find_S12_gap_exceeds_stride :
  find_S12 [1; 2; 3]%Q [0; 10; 11] 275%Q 1000000%Q 2 100 4 false 40
  = Ok [(0%nat, ([0; 275]%Q, [1; 3]%Q))]
  /\ time_from_index [0; 11] = [0; 275]%Q
  /\ ~ gaps_within (25 * inject_Z 4) [0; 275]%Q.
Proof.
  split; [|split].
  - vm_compute. reflexivity.
  - vm_compute. reflexivity.
  - simpl. intros [Hgap _]. vm_compute in Hgap. apply Hgap. reflexivity.
Qed.

(** * Further properties *)

(** ** [wfzs] *)

Section ZeroSuppressionFacts.
Context {R : Type} `{Arith R}.

Lemma array_set_at_length {A} (done : list A) (x v : A) (rest : list A) :
  array_set (done ++ x :: rest) (length done) v = done ++ v :: rest.
Proof.
  induction done as [|y done IH]; simpl; [reflexivity|].
  rewrite IH. reflexivity.
Qed.

Lemma repeat_S_app {A} (d : A) n : repeat d (S n) = d :: repeat d n.
Proof. reflexivity. Qed.

(** The selection loop fills the scratch arrays, from slot [j] on, with
    the samples above threshold and their positions. *)
Lemma wfzs_select_spec threshold :
  forall (rest : list R) i (De : list R) (Di : list Z) k,
    length De = length Di ->
    (length rest <= k)%nat ->
    let sel := filter (fun ix => gtb (snd ix) threshold)
                      (combine (seq i (length rest)) rest) in
    wfzs_select threshold rest i
                (De ++ repeat zero k) (Di ++ repeat 0 k) (length De)
    = (De ++ map snd sel ++ repeat zero (k - length sel),
       Di ++ map (fun ix => Z.of_nat (fst ix)) sel
          ++ repeat 0 (k - length sel),
       (length De + length sel)%nat).
Proof.
  induction rest as [|x rest IH]; intros i De Di k Hlen Hk; cbn zeta.
  - simpl. rewrite Nat.sub_0_r, Nat.add_0_r. reflexivity.
  - simpl in Hk. destruct k as [|k]; [lia|].
    cbn [wfzs_select length seq combine filter snd].
    destruct (gtb x threshold) eqn:Hx.
    + rewrite !repeat_S_app, array_set_at_length.
      rewrite Hlen at 1. rewrite array_set_at_length.
      specialize (IH (S i) (De ++ [x]) (Di ++ [Z.of_nat i]) k).
      cbn zeta in IH.
      rewrite <- !app_assoc in IH. cbn [app] in IH.
      replace (S (length De)) with (length (De ++ [x]))
        by (rewrite length_app; simpl; lia).
      rewrite IH.
      * cbn [map fst snd length app Nat.sub]. rewrite length_app.
        cbn [length]. f_equal. lia.
      * rewrite !length_app. simpl. lia.
      * lia.
    + specialize (IH (S i) De Di (S k) Hlen).
      cbn zeta in IH. rewrite IH by lia.
      set (sel := filter _ _).
      assert (Hsel : (length sel <= length rest)%nat).
      { unfold sel. etransitivity; [apply filter_length_le|].
        rewrite length_combine, length_seq. lia. }
      replace (S k - length sel)%nat with (S (k - length sel)) by lia.
      reflexivity.
Qed.

Lemma copy_loop_spec {A} (d : A) (src : list A) :
  forall n i (done : list A),
    length done = i ->
    (i + n <= length src)%nat ->
    copy_loop d n i (done ++ repeat d n) src
    = done ++ firstn n (skipn i src).
Proof.
  induction n as [|n IH]; intros i done Hdone Hn.
  - simpl. reflexivity.
  - cbn [copy_loop]. rewrite repeat_S_app. subst i.
    rewrite array_set_at_length.
    rewrite (skipn_nth_cons src d) by lia. cbn [firstn].
    specialize (IH (S (length done)) (done ++ [nth (length done) src d])).
    rewrite <- !app_assoc in IH. cbn [app] in IH. apply IH.
    + rewrite length_app. simpl. lia.
    + lia.
Qed.

(** The two loops of [wfzs] compute the samples above threshold and their
    positions. *)
Lemma wfzs_spec (wf : list R) (threshold : R) :
  wfzs wf threshold
  = (map snd (above threshold wf),
     map (fun ix => Z.of_nat (fst ix)) (above threshold wf)).
Proof.
  unfold wfzs.
  pose proof (@wfzs_select_spec threshold wf 0%nat [] [] (length wf)
                                eq_refl (Nat.le_refl _)) as Hsel.
  cbn zeta in Hsel. cbn [app length Nat.add] in Hsel.
  fold (above threshold wf) in Hsel. rewrite Hsel.
  set (sel := above threshold wf).
  pose proof (@copy_loop_spec R zero
                (map snd sel ++ repeat zero (length wf - length sel))
                (length sel) 0%nat [] eq_refl) as He.
  pose proof (@copy_loop_spec Z 0
                (map (fun ix => Z.of_nat (fst ix)) sel
                     ++ repeat 0 (length wf - length sel))
                (length sel) 0%nat [] eq_refl) as Hi.
  cbn [app skipn] in He, Hi.
  rewrite He, Hi.
  - f_equal.
    + rewrite firstn_app, firstn_all2 by (rewrite length_map; lia).
      rewrite length_map, Nat.sub_diag. simpl. apply app_nil_r.
    + rewrite firstn_app, firstn_all2 by (rewrite length_map; lia).
      rewrite length_map, Nat.sub_diag. simpl. apply app_nil_r.
  - rewrite length_app, length_map. lia.
  - rewrite length_app, length_map. lia.
Qed.

End ZeroSuppressionFacts.

Section ZeroSuppressionProperties.
Context {R : Type} `{Arith R}.

Lemma in_combine_seq {A} (l : list A) :
  forall s i x,
    In (i, x) (combine (seq s (length l)) l)
    <-> (s <= i)%nat /\ nth_error l (i - s) = Some x.
Proof.
  induction l as [|y l IH]; intros s i x; simpl.
  - split; [tauto|]. intros [_ Hnth]. destruct (i - s)%nat; discriminate.
  - rewrite IH. split.
    + intros [Heq|[Hle Hnth]].
      * injection Heq as <- <-. rewrite Nat.sub_diag. simpl. auto.
      * split; [lia|]. replace (i - s)%nat with (S (i - S s)) by lia.
        exact Hnth.
    + intros [Hle Hnth]. destruct (Nat.eq_dec s i) as [->|Hne].
      * rewrite Nat.sub_diag in Hnth. simpl in Hnth. left. congruence.
      * right. split; [lia|].
        replace (i - s)%nat with (S (i - S s)) in Hnth by lia.
        exact Hnth.
Qed.

Lemma map_snd_filter_combine {A B} (p : B -> bool) (l2 : list B) :
  forall (l1 : list A), length l1 = length l2 ->
    map snd (filter (fun ab => p (snd ab)) (combine l1 l2)) = filter p l2.
Proof.
  induction l2 as [|b l2 IH]; intros [|a l1] Hlen; simpl in *;
    try reflexivity; try discriminate.
  destruct (p b); simpl; rewrite IH by lia; reflexivity.
Qed.

Lemma above_positions_increasing threshold (l : list R) :
  forall s,
    StronglySorted lt
      (map fst (filter (fun ix => gtb (snd ix) threshold)
                       (combine (seq s (length l)) l))).
Proof.
  induction l as [|x l IH]; intros s; simpl; [constructor|].
  assert (Hlater : Forall (fun i => (s < i)%nat)
            (map fst (filter (fun ix => gtb (snd ix) threshold)
                             (combine (seq (S s) (length l)) l)))).
  { apply Forall_forall. intros i Hin.
    apply in_map_iff in Hin. destruct Hin as [[i' x'] [Hfst Hin]].
    simpl in Hfst. subst i'. apply filter_In in Hin. destruct Hin as [Hin _].
    apply in_combine_seq in Hin. lia. }
  destruct (gtb x threshold); simpl.
  - constructor; [apply IH | exact Hlater].
  - apply IH.
Qed.

(** X1.  [wfzs] returns, in waveform order, exactly the samples that are
    strictly above the threshold, together with as many indices; nothing
    is returned for the samples at or below it. *)
Theorem wfzs_keeps_samples_above_threshold (wf : list R) (threshold : R) :
  fst (wfzs wf threshold) = filter (fun x => gtb x threshold) wf
  /\ length (snd (wfzs wf threshold)) = length (fst (wfzs wf threshold))
  /\ (length (fst (wfzs wf threshold)) <= length wf)%nat.
Proof.
  rewrite wfzs_spec. cbn [fst snd]. unfold above.
  pose proof (@map_snd_filter_combine nat R (fun x => gtb x threshold) wf
                (seq 0 (length wf)) (length_seq _ _)) as Hsnd.
  cbn beta in Hsnd.
  split; [exact Hsnd|]. split.
  - rewrite !length_map. reflexivity.
  - rewrite length_map.
    etransitivity; [apply filter_length_le|].
    rewrite length_combine, length_seq. lia.
Qed.

(** X2.  The index array of [wfzs] locates the returned energies: the
    k-th index is the position in the waveform of the k-th returned
    sample, the indices are strictly increasing, and every position whose
    sample exceeds the threshold occurs among them. *)
Theorem wfzs_indices_locate_samples (wf : list R) (threshold : R) :
  let (wfzs_ene, wfzs_indx) := wfzs wf threshold in
  Forall2 (fun e i => 0 <= i < Z.of_nat (length wf)
                      /\ nth_error wf (Z.to_nat i) = Some e
                      /\ gtb e threshold = true)
          wfzs_ene wfzs_indx
  /\ StronglySorted Z.lt wfzs_indx
  /\ forall i e, nth_error wf i = Some e -> gtb e threshold = true ->
                 In (Z.of_nat i) wfzs_indx.
Proof.
  rewrite wfzs_spec. split; [|split].
  - assert (Hall : Forall (fun ix : nat * R =>
                     0 <= Z.of_nat (fst ix) < Z.of_nat (length wf)
                     /\ nth_error wf (Z.to_nat (Z.of_nat (fst ix)))
                        = Some (snd ix)
                     /\ gtb (snd ix) threshold = true)
                   (above threshold wf)).
    { apply Forall_forall. intros [i x] Hin. unfold above in Hin.
      apply filter_In in Hin. destruct Hin as [Hin Hgt].
      apply in_combine_seq in Hin. destruct Hin as [_ Hnth].
      rewrite Nat.sub_0_r in Hnth. cbn [fst snd] in *.
      rewrite Nat2Z.id. repeat split; try assumption; try lia.
      apply Nat2Z.inj_lt. apply nth_error_Some. congruence. }
    induction Hall as [|[i x] l Hx Hl IH]; simpl; constructor; assumption.
  - unfold above. rewrite <- (map_map fst Z.of_nat).
    pose proof (above_positions_increasing threshold wf 0) as Hs.
    induction Hs as [|i l Hs IH Hall]; simpl; constructor; [exact IH|].
    apply Forall_map. eapply Forall_impl; [|exact Hall].
    simpl. intros; lia.
  - intros i e Hnth Hgt. apply in_map_iff. exists (i, e). split; [reflexivity|].
    unfold above. apply filter_In. split; [|exact Hgt].
    apply in_combine_seq. rewrite Nat.sub_0_r. split; [lia|exact Hnth].
Qed.

End ZeroSuppressionProperties.

(** ** [find_S12]: the candidate peaks as a list *)

Section Grouping.
Context {R : Type} `{Arith R}.
Variables (tmin tmax : R) (stride : Z).

(** The dictionary built by the scan lists the peaks of [groups_of] under
    consecutive keys. *)
Lemma scan_groups :
  forall (rest : list (Z * sample)) prev (D : dict (list sample)) j cur,
    Forall (fun k => (k < j)%nat) (dict_keys D) ->
    scan tmin tmax stride prev rest (D ++ [(j, cur)]) j
    = D ++ combine (seq j (length (groups_of tmin tmax stride prev rest cur)))
                   (groups_of tmin tmax stride prev rest cur).
Proof.
  induction rest as [|[ix [ti pi]] rest IH]; intros prev D j cur HD.
  - reflexivity.
  - cbn [scan groups_of].
    destruct (gtb ti tmax); [reflexivity|].
    destruct (ltb ti tmin); [apply IH; exact HD|].
    assert (Hj : ~ In j (dict_keys D)).
    { rewrite Forall_forall in HD. intros Hin. apply HD in Hin. lia. }
    destruct (ix - stride >? prev).
    + assert (Hfresh : ~ In (S j) (dict_keys (D ++ [(j, cur)]))).
      { rewrite dict_keys_app, in_app_iff. simpl.
        rewrite Forall_forall in HD. intros [Hin|[Hin|[]]].
        - apply HD in Hin. lia.
        - lia. }
      rewrite dict_set_fresh by exact Hfresh.
      rewrite dict_alter_last by exact Hfresh.
      cbn [app]. rewrite IH.
      * cbn [length seq combine]. rewrite <- app_assoc. reflexivity.
      * rewrite dict_keys_app. apply Forall_app. split.
        -- eapply Forall_impl; [|exact HD]. simpl. intros; lia.
        -- repeat constructor.
    + rewrite dict_alter_last by exact Hj. apply IH. exact HD.
Qed.

Lemma group_S12_groups (i0 : Z) (t0 p0 : R) (rest : list (Z * sample)) :
  group_S12 tmin tmax stride i0 t0 p0 rest
  = reindexed (groups_of tmin tmax stride i0 rest [(t0, p0)]).
Proof.
  unfold group_S12. cbn [dict_set dict_alter Nat.eqb app].
  apply (@scan_groups rest i0 [] 0%nat [(t0, p0)]). constructor.
Qed.

Lemma dict_values_reindexed {V} (vs : list V) :
  dict_values (reindexed vs) = vs.
Proof.
  unfold dict_values, reindexed. apply map_snd_zip.
  symmetry. apply length_seq.
Qed.

Lemma dict_keys_reindexed {V} (vs : list V) :
  dict_keys (reindexed vs) = seq 0 (length vs).
Proof.
  unfold dict_keys, reindexed. apply map_fst_zip.
  symmetry. apply length_seq.
Qed.

Lemma groups_of_concat :
  forall (rest : list (Z * sample)) prev cur,
    concat (groups_of tmin tmax stride prev rest cur)
    = cur ++ scanned tmin tmax rest.
Proof.
  induction rest as [|[ix [ti pi]] rest IH]; intros prev cur;
    cbn [groups_of scanned].
  - simpl. reflexivity.
  - destruct (gtb ti tmax); [simpl; reflexivity|].
    destruct (ltb ti tmin); [apply IH|].
    destruct (ix - stride >? prev).
    + cbn [concat]. rewrite IH. reflexivity.
    + rewrite IH, <- app_assoc. reflexivity.
Qed.

Lemma groups_of_nonempty :
  forall (rest : list (Z * sample)) prev cur,
    cur <> [] ->
    Forall (fun g => g <> []) (groups_of tmin tmax stride prev rest cur).
Proof.
  induction rest as [|[ix [ti pi]] rest IH]; intros prev cur Hcur;
    cbn [groups_of].
  - repeat constructor. exact Hcur.
  - destruct (gtb ti tmax); [repeat constructor; exact Hcur|].
    destruct (ltb ti tmin); [apply IH; exact Hcur|].
    destruct (ix - stride >? prev).
    + constructor; [exact Hcur|]. apply IH. discriminate.
    + apply IH. destruct cur; discriminate.
Qed.

(** X3.  The candidate grouping of [find_S12] is keyed 0, 1, 2, ... in
    discovery order, none of its peaks is empty, and its peaks, read one
    after the other, are the first sample followed by the scanned samples
    (those before the first one later than [tmax] that are not earlier
    than [tmin]) in their original order: no stored sample is lost,
    duplicated or moved. *)
Theorem group_S12_partitions_scanned_samples
        (i0 : Z) (p0 : R) (index' : list Z) (P' : list R) :
  let t0 := mul (of_Z 25) (of_Z i0) in
  let S12 := group_S12 tmin tmax stride i0 t0 p0 (tail_samples index' P') in
  dict_keys S12 = seq 0 (length S12)
  /\ Forall (fun s12 => s12 <> []) (dict_values S12)
  /\ concat (dict_values S12)
     = (t0, p0) :: scanned tmin tmax (tail_samples index' P').
Proof.
  intros t0 S12. unfold S12. rewrite group_S12_groups.
  rewrite dict_keys_reindexed, dict_values_reindexed.
  split; [|split].
  - unfold reindexed. rewrite length_combine, length_seq, Nat.min_id.
    reflexivity.
  - apply groups_of_nonempty. discriminate.
  - apply groups_of_concat.
Qed.

Lemma mapM_finish_no_rebin rebin_stride (l : list (list sample)) :
  mapM (finish_peak false rebin_stride) l = Ok (map columns l).
Proof.
  induction l as [|s l IH]; simpl; [reflexivity|].
  rewrite IH. reflexivity.
Qed.

(** X4.  Without rebinning, [find_S12] fails in two cases only: arrays of
    different lengths (AssertionError) and empty arrays (IndexError). *)
Theorem find_S12_no_rebin_failures
        (wf : list R) (index : list Z) (lmin lmax rebin_stride : Z)
        (e : exn) :
  find_S12 wf index tmin tmax lmin lmax stride false rebin_stride = Raise e
  <-> (length wf <> length index /\ e = AssertionError)
      \/ (wf = [] /\ index = [] /\ e = IndexError).
Proof.
  unfold find_S12.
  destruct (Nat.eqb (length wf) (length index)) eqn:Hlen; cbn [negb].
  - apply Nat.eqb_eq in Hlen.
    destruct index as [|i0 index'], wf as [|p0 P']; simpl in Hlen;
      try discriminate.
    + simpl. split.
      * intros Heq. injection Heq as <-. right. auto.
      * intros [[Hne _]|(_ & _ & ->)]; [contradiction|reflexivity].
    + cbn [time_from_index map].
      rewrite rearrange_spec by constructor.
      rewrite mapM_finish_no_rebin. cbn [bind]. split.
      * discriminate.
      * intros [[Hne _]|(Hwf & _)]; [simpl in Hne; lia|discriminate].
  - apply Nat.eqb_neq in Hlen. split.
    + intros Heq. injection Heq as <-. left. auto.
    + intros [[_ ->]|(-> & -> & _)]; [reflexivity|contradiction].
Qed.

End Grouping.

(** ** [find_S12]: peaks as maximal runs *)

Section MaximalRuns.
Local Open Scope Q_scope.
Variables (tmin tmax : Q) (stride : Z).

Lemma groups_of_head :
  forall (rest : list (Z * (Q * Q))) prev cur,
    exists more others,
      groups_of tmin tmax stride prev rest cur = (cur ++ more) :: others.
Proof.
  induction rest as [|[ix [ti pi]] rest IH]; intros prev cur;
    cbn [groups_of].
  - exists [], []. rewrite app_nil_r. reflexivity.
  - destruct (gtb ti tmax).
    { exists [], []. rewrite app_nil_r. reflexivity. }
    destruct (ltb ti tmin); [apply IH|].
    destruct (ix - stride >? prev)%Z.
    + exists [], (groups_of tmin tmax stride ix rest [(ti, pi)]).
      rewrite app_nil_r. reflexivity.
    + destruct (IH ix (cur ++ [(ti, pi)])) as (more & others & Heq).
      exists ((ti, pi) :: more), others. rewrite Heq, <- app_assoc.
      reflexivity.
Qed.

Lemma last_map_fst_snoc (pre : list (Q * Q)) t p :
  last (map fst (pre ++ [(t, p)])) 0 = t.
Proof.
  rewrite map_app. simpl. apply last_last.
Qed.

Lemma index_gap_time_separation (ix prev : Z) :
  (ix - stride >? prev)%Z = true ->
  25 * inject_Z stride
  < inject_Z 25 * inject_Z ix - inject_Z 25 * inject_Z prev.
Proof.
  intros Hgap. rewrite Z.gtb_ltb in Hgap. apply Z.ltb_lt in Hgap.
  change (25 * inject_Z stride) with (inject_Z 25 * inject_Z stride).
  rewrite <- !inject_Z_mult. unfold Qminus.
  rewrite <- inject_Z_opp, <- inject_Z_plus, <- Zlt_Qlt. lia.
Qed.

Lemma groups_of_separated :
  forall (rest : list (Z * (Q * Q))) prev pre p,
    Forall (fun x => fst (snd x) = inject_Z 25 * inject_Z (fst x)) rest ->
    Forall (fun x => Qltb (fst (snd x)) tmin = false) rest ->
    separated (25 * inject_Z stride)
              (groups_of tmin tmax stride prev rest
                         (pre ++ [(inject_Z 25 * inject_Z prev, p)])).
Proof.
  induction rest as [|[ix [ti pi]] rest IH]; intros prev pre p Htimes Hmin.
  - simpl. exact I.
  - inversion Htimes as [|? ? Hti Htimes']; subst.
    inversion Hmin as [|? ? Hmin1 Hmin']; subst.
    cbn [fst snd] in *. subst ti. cbn [groups_of].
    destruct (gtb (inject_Z 25 * inject_Z ix) tmax); [simpl; exact I|].
    change (ltb (inject_Z 25 * inject_Z ix) tmin)
      with (Qltb (inject_Z 25 * inject_Z ix) tmin).
    rewrite Hmin1.
    destruct (ix - stride >? prev)%Z eqn:Hgap.
    + pose proof (IH ix [] pi Htimes' Hmin') as Hsep. cbn [app] in Hsep.
      destruct (groups_of_head rest ix [(inject_Z 25 * inject_Z ix, pi)])
        as (more & others & Heq).
      rewrite Heq in *. cbn [separated]. split; [|exact Hsep].
      rewrite last_map_fst_snoc. cbn [app map fst hd].
      apply index_gap_time_separation. exact Hgap.
    + apply (IH ix (pre ++ [(inject_Z 25 * inject_Z prev, p)]) pi);
        assumption.
Qed.

Lemma tail_samples_times (index' : list Z) (P' : list Q) :
  Forall (fun x => fst (snd x) = inject_Z 25 * inject_Z (fst x))
         (tail_samples index' P').
Proof.
  unfold tail_samples. revert P'.
  induction index' as [|i l IH]; intros [|p P']; simpl; constructor.
  - reflexivity.
  - apply IH.
Qed.

Lemma tail_samples_not_skipped (index' : list Z) (P' : list Q) :
  Forall (fun t => Qltb t tmin = false) (time_from_index index') ->
  Forall (fun x => Qltb (fst (snd x)) tmin = false) (tail_samples index' P').
Proof.
  unfold tail_samples. revert P'.
  induction index' as [|i l IH]; intros [|p P'] Hmin; simpl in *;
    try constructor.
  - inversion Hmin; subst. assumption.
  - inversion Hmin; subst. apply IH. assumption.
Qed.

(** X5.  When no sample after the first is earlier than [tmin], adjacent
    candidate peaks of [find_S12] are separated by an index gap larger
    than [stride]: the first time of each peak exceeds the last time of
    the peak before it by more than 25 * stride.  No two peaks could
    have been merged. *)
Theorem group_S12_peaks_separated
        (i0 : Z) (p0 : Q) (index' : list Z) (P' : list Q) :
  Forall (fun t => Qltb t tmin = false) (time_from_index index') ->
  separated (25 * inject_Z stride)
            (dict_values
               (group_S12 tmin tmax stride i0 (inject_Z 25 * inject_Z i0) p0
                          (tail_samples index' P'))).
Proof.
  intros Hmin. rewrite group_S12_groups, dict_values_reindexed.
  apply (@groups_of_separated (tail_samples index' P') i0 [] p0).
  - apply tail_samples_times.
  - apply tail_samples_not_skipped. exact Hmin.
Qed.

(** X6.  When no sample after the first is earlier than [tmin], every
    peak returned by [find_S12] (without rebinning) has consecutive times
    at most 25 * stride apart, that is consecutive index gaps of at most
    [stride]. *)
Theorem find_S12_gaps_within_stride
        (i0 : Z) (p0 : Q) (index' : list Z) (P' : list Q)
        (lmin lmax rebin_stride : Z) :
  length P' = length index' ->
  Forall (fun t => Qltb t tmin = false) (time_from_index index') ->
  exists S12L,
    find_S12 (p0 :: P') (i0 :: index')
             tmin tmax lmin lmax stride false rebin_stride = Ok S12L
    /\ Forall (fun te => gaps_within (25 * inject_Z stride) (fst te))
              (dict_values S12L).
Proof.
  intros Hlen Hmin.
  pose proof (@group_S12_gaps tmin tmax stride p0 P' i0 index' Hlen Hmin)
    as Hgaps.
  unfold find_S12. cbn [length]. rewrite Hlen, Nat.eqb_refl.
  cbn [negb time_from_index map].
  rewrite rearrange_spec by constructor.
  rewrite mapM_finish_no_rebin. cbn [bind].
  eexists. split; [reflexivity|].
  cbn [app]. unfold dict_values at 1.
  rewrite map_snd_zip by (symmetry; apply length_seq). apply Forall_map.
  unfold kept_peaks. apply Forall_forall. intros s12 Hin.
  apply filter_In in Hin. destruct Hin as [Hin _].
  rewrite Forall_forall in Hgaps. apply (Hgaps s12). exact Hin.
Qed.

End MaximalRuns.

(** ** [rebin_waveform]: the bins *)

Section RebinBins.
Context {R : Type} `{Arith R}.

Lemma array_set_at {A} (done : list A) (x v : A) (rest : list A) i :
  length done = i ->
  array_set (done ++ x :: rest) i v = done ++ v :: rest.
Proof. intros <-. apply array_set_at_length. Qed.

Lemma rebin_loop_closed (t e : list R) (s : nat) :
  forall n i (Td Ed : list R) k,
    length Td = i -> length Ed = i ->
    rebin_loop t e s n i (i * s)
               (Td ++ repeat zero (n + k)) (Ed ++ repeat zero (n + k))
    = (Td ++ map (fun m => div (sum_range t (m * s) s)
                               (of_Z (Z.of_nat s))) (seq i n)
          ++ repeat zero k,
       Ed ++ map (fun m => sum_range e (m * s) s) (seq i n)
          ++ repeat zero k,
       ((i + n) * s)%nat).
Proof.
  induction n as [|n IH]; intros i Td Ed k HTd HEd.
  - simpl. rewrite Nat.add_0_r. reflexivity.
  - cbn [rebin_loop Nat.add]. rewrite !repeat_S_app.
    rewrite (array_set_at Ed _ _ _ HEd), (array_set_at Td _ _ _ HTd).
    replace (i * s + s)%nat with (S i * s)%nat by (simpl; lia).
    specialize (IH (S i)
                   (Td ++ [div (sum_range t (i * s) s) (of_Z (Z.of_nat s))])
                   (Ed ++ [sum_range e (i * s) s]) k).
    rewrite <- !app_assoc in IH. cbn [app] in IH.
    rewrite IH by (rewrite length_app; simpl; lia).
    cbn [seq map]. f_equal. lia.
Qed.

Lemma bin_size_full len s m :
  ((m + 1) * s <= len)%nat -> bin_size len s m = s.
Proof. unfold bin_size. nia. Qed.

Lemma map_seq_ext {A} (f g : nat -> A) :
  forall len start,
    (forall m, (start <= m < start + len)%nat -> f m = g m) ->
    map f (seq start len) = map g (seq start len).
Proof.
  induction len as [|len IH]; intros start Hfg; simpl; [reflexivity|].
  rewrite Hfg by lia. rewrite IH; [reflexivity|].
  intros m Hm. apply Hfg. lia.
Qed.

(** For arrays of equal length and a positive stride, [rebin_waveform]
    returns the means and the sums of the consecutive bins. *)
Lemma rebin_waveform_closed_form (t e : list R) (stride : Z) :
  length t = length e ->
  0 < stride ->
  let s := Z.to_nat stride in
  rebin_waveform t e stride
  = Ok (map (bin_mean t s) (seq 0 (bin_count (length t) s)),
        map (bin_sum e s) (seq 0 (bin_count (length t) s))).
Proof.
  intros Hlen Hstride s. unfold rebin_waveform.
  rewrite Hlen, Nat.eqb_refl. cbn [negb].
  replace (stride =? 0) with false by (symmetry; apply Z.eqb_neq; lia).
  assert (Hs : (0 < s)%nat) by (unfold s; lia).
  set (len := length e).
  set (n := (len / s)%nat). set (r := (len mod s)%nat).
  assert (HnZ : Z.of_nat len / stride = Z.of_nat n).
  { unfold n. rewrite Nat2Z.inj_div. unfold s. rewrite Z2Nat.id by lia.
    reflexivity. }
  assert (HrZ : Z.of_nat len mod stride = Z.of_nat r).
  { unfold r. rewrite Nat2Z.inj_mod. unfold s. rewrite Z2Nat.id by lia.
    reflexivity. }
  assert (Hdiv : len = (s * n + r)%nat) by (apply Nat.div_mod; lia).
  assert (Hr : (r < s)%nat) by (apply Nat.mod_upper_bound; lia).
  rewrite HnZ, HrZ, Nat2Z.id. fold s.
  assert (Hfull : forall (a : list R), length a = len ->
            map (fun m => sum_range a (m * s) s) (seq 0 n)
            = map (bin_sum a s) (seq 0 n)).
  { intros a Ha. apply map_seq_ext. intros m Hm. unfold bin_sum.
    rewrite Ha, bin_size_full by nia. reflexivity. }
  assert (Hfullt : map (fun m => div (sum_range t (m * s) s)
                                     (of_Z (Z.of_nat s))) (seq 0 n)
                   = map (bin_mean t s) (seq 0 n)).
  { apply map_seq_ext. intros m Hm. unfold bin_mean.
    rewrite Hlen. fold len. rewrite bin_size_full by nia. reflexivity. }
  unfold bin_count. fold n r.
  destruct (Nat.eqb r 0) eqn:Hr0.
  - apply Nat.eqb_eq in Hr0.
    replace (0 <? Z.of_nat r) with false by (symmetry; apply Z.ltb_ge; lia).
    replace (Z.of_nat n <? 0) with false by (symmetry; apply Z.ltb_ge; lia).
    replace (Z.to_nat (Z.of_nat n)) with (n + 0)%nat by lia.
    pose proof (@rebin_loop_closed t e s n 0%nat [] [] 0%nat
                                   eq_refl eq_refl) as Hloop.
    cbn [app Nat.mul Nat.add] in Hloop. rewrite Hloop.
    cbn [app repeat]. rewrite !app_nil_r, Nat.add_0_r.
    rewrite Hfullt, (Hfull e eq_refl). reflexivity.
  - apply Nat.eqb_neq in Hr0.
    replace (0 <? Z.of_nat r) with true by (symmetry; apply Z.ltb_lt; lia).
    replace (Z.of_nat n + 1 <? 0) with false
      by (symmetry; apply Z.ltb_ge; lia).
    replace (Z.to_nat (Z.of_nat n + 1)) with (n + 1)%nat by lia.
    pose proof (@rebin_loop_closed t e s n 0%nat [] [] 1%nat
                                   eq_refl eq_refl) as Hloop.
    cbn [app Nat.mul Nat.add] in Hloop. rewrite Hloop.
    cbn [app repeat Nat.add].
    rewrite Hfullt, (Hfull e eq_refl).
    rewrite (array_set_at (map (bin_mean t s) (seq 0 n)))
      by (rewrite length_map, length_seq; reflexivity).
    rewrite (array_set_at (map (bin_sum e s) (seq 0 n)))
      by (rewrite length_map, length_seq; reflexivity).
    rewrite seq_app, !map_app. cbn [seq map Nat.add].
    unfold bin_mean, bin_sum. rewrite Hlen. fold len.
    assert (Hsize : bin_size len s n = (len - n * s)%nat)
      by (unfold bin_size; nia).
    rewrite Hsize. reflexivity.
Qed.

End RebinBins.

Section RebinProperties.
Context {R : Type} `{Arith R}.

(** X7.  For arrays of equal length and a positive stride,
    [rebin_waveform] returns two arrays of ceil(len / stride) bins: bin
    [m] of [E] is the left-to-right sum of the energies
    [e[m*stride : (m+1)*stride]] (cut at the end of the array) and bin
    [m] of [T] is the sum of the corresponding times divided by the
    number of samples in the bin. *)
Theorem rebin_waveform_bins (t e : list R) (stride : Z) :
  length t = length e ->
  0 < stride ->
  let s := Z.to_nat stride in
  exists T E,
    rebin_waveform t e stride = Ok (T, E)
    /\ length T = bin_count (length t) s
    /\ length E = bin_count (length t) s
    /\ forall m, (m < bin_count (length t) s)%nat ->
         nth_error T m = Some (bin_mean t s m)
         /\ nth_error E m = Some (bin_sum e s m).
Proof.
  intros Hlen Hstride s.
  rewrite (rebin_waveform_closed_form t e Hlen Hstride). fold s.
  eexists _, _. split; [reflexivity|].
  rewrite !length_map, !length_seq. split; [reflexivity|].
  split; [reflexivity|].
  intros m Hm. rewrite !nth_error_map, nth_error_seq.
  apply Nat.ltb_lt in Hm. rewrite Hm. simpl. auto.
Qed.

(** X8.  [rebin_waveform] fails in three cases only: arrays of different
    lengths (AssertionError), a stride of zero (ZeroDivisionError), and a
    negative stride on a non-empty waveform (ValueError, from the
    negative array size). *)
Theorem rebin_waveform_failures (t e : list R) (stride : Z) (x : exn) :
  rebin_waveform t e stride = Raise x
  <-> (length t <> length e /\ x = AssertionError)
      \/ (length t = length e /\ stride = 0 /\ x = ZeroDivisionError)
      \/ (length t = length e /\ stride < 0 /\ t <> []
          /\ x = ValueError).
Proof.
  destruct (Nat.eq_dec (length t) (length e)) as [Hlen|Hlen].
  2:{ unfold rebin_waveform.
      replace (Nat.eqb (length t) (length e)) with false
        by (symmetry; apply Nat.eqb_neq; exact Hlen).
      cbn [negb]. split.
      - intros Heq. injection Heq as <-. left. auto.
      - intros [[_ ->]|[(Hl & _)|(Hl & _)]];
          [reflexivity|contradiction|contradiction]. }
  destruct (Z.lt_trichotomy stride 0) as [Hneg|[Hzero|Hpos]].
  - unfold rebin_waveform. rewrite Hlen, Nat.eqb_refl. cbn [negb].
    replace (stride =? 0) with false by (symmetry; apply Z.eqb_neq; lia).
    destruct e as [|e0 e'].
    + destruct t; [|discriminate]. simpl. split; [discriminate|].
      intros [[Hne _]|[(_ & Hs & _)|(_ & _ & Hne & _)]];
        [contradiction|lia|contradiction].
    + set (len := Z.of_nat (length (e0 :: e'))).
      assert (Hlenpos : 0 < len) by (unfold len; simpl; lia).
      pose proof (Z.mod_neg_bound len stride Hneg) as Hr.
      pose proof (Z.div_mod len stride ltac:(lia)) as Hdiv.
      assert (Hn : len / stride < 0) by nia.
      replace (0 <? len mod stride) with false
        by (symmetry; apply Z.ltb_ge; lia).
      replace (len / stride <? 0) with true
        by (symmetry; apply Z.ltb_lt; lia).
      split.
      * intros Heq. injection Heq as <-. right. right.
        repeat split; try assumption. destruct t; discriminate.
      * intros [[Hne _]|[(_ & Hs & _)|(_ & _ & _ & ->)]];
          [contradiction|lia|reflexivity].
  - subst stride. unfold rebin_waveform. rewrite Hlen, Nat.eqb_refl.
    cbn [negb Z.eqb]. split.
    + intros Heq. injection Heq as <-. right. left. auto.
    + intros [[Hne _]|[(_ & _ & ->)|(_ & Hs & _)]];
        [contradiction|reflexivity|lia].
  - rewrite (rebin_waveform_closed_form t e Hlen Hpos). split.
    + discriminate.
    + intros [[Hne _]|[(_ & Hs & _)|(_ & Hs & _)]]; [contradiction|lia|lia].
Qed.

End RebinProperties.

(** Rebinning five samples by two, in binary64. *)
Lemma rebin_waveform_bins_witness :
  exists T E,
    rebin_waveform [1; 2; 3; 4; 5]%float [3; 1; 4; 1; 5]%float 2 = Ok (T, E)
    /\ length T = 3%nat /\ length E = 3%nat
    /\ nth_error E 2 = Some 5%float.
Proof.
  destruct (@rebin_waveform_bins float _ [1; 2; 3; 4; 5]%float
              [3; 1; 4; 1; 5]%float 2 eq_refl eq_refl)
    as (T & E & Hok & HT & HE & Hbins).
  exists T, E. split; [exact Hok|]. split; [exact HT|]. split; [exact HE|].
  destruct (Hbins 2%nat) as [_ Hbin]; [vm_compute; lia|].
  rewrite Hbin. vm_compute. reflexivity.
Defined.

Section RebinExactArithmetic.
Local Open Scope Q_scope.

Lemma Forall2_map_seq_nth (f : nat -> Q) (l : list Q) :
  (forall m, (m < length l)%nat -> f m == nth m l 0) ->
  Forall2 Qeq (map f (seq 0 (length l))) l.
Proof.
  revert f. induction l as [|x l IH]; intros f Hf; simpl; constructor.
  - apply (Hf 0%nat). simpl. lia.
  - rewrite <- seq_shift, map_map. apply IH.
    intros m Hm. apply (Hf (S m)). simpl. lia.
Qed.

Lemma bin_count_one len : bin_count len 1 = len.
Proof.
  unfold bin_count. rewrite Nat.div_1_r, Nat.mod_1_r. simpl. lia.
Qed.

(** X9.  In exact arithmetic a stride of one leaves the waveform as it
    is: the rebinned times and energies equal the input ones, entry by
    entry. *)
Theorem rebin_waveform_stride_one (t e : list Q) :
  length t = length e ->
  exists T E,
    rebin_waveform t e 1 = Ok (T, E)
    /\ Forall2 Qeq T t /\ Forall2 Qeq E e.
Proof.
  intros Hlen.
  rewrite (@rebin_waveform_closed_form Q _ t e 1%Z Hlen eq_refl).
  cbv zeta. change (Z.to_nat 1) with 1%nat. rewrite bin_count_one.
  eexists _, _. split; [reflexivity|]. split.
  - apply Forall2_map_seq_nth. intros m Hm.
    unfold bin_mean, bin_size.
    replace (Nat.min 1 (length t - m * 1)) with 1%nat by lia.
    rewrite Nat.mul_1_r. unfold sum_range. simpl.
    change (inject_Z 1) with 1. field.
  - rewrite Hlen. apply Forall2_map_seq_nth. intros m Hm.
    unfold bin_sum, bin_size.
    replace (Nat.min 1 (length e - m * 1)) with 1%nat by lia.
    rewrite Nat.mul_1_r. unfold sum_range. simpl. ring.
Qed.

(** In exact arithmetic the bins of a waveform add up to its total. *)
Lemma rebin_waveform_total (t e : list Q) (stride : Z) :
  length t = length e ->
  (0 < stride)%Z ->
  exists T E,
    rebin_waveform t e stride = Ok (T, E) /\ Qsum E == Qsum e.
Proof.
  intros Hlen Hstride. unfold rebin_waveform.
  rewrite Hlen, Nat.eqb_refl. cbn [negb].
  replace (stride =? 0)%Z with false by (symmetry; apply Z.eqb_neq; lia).
  set (len := Z.of_nat (length e)).
  set (n := (len / stride)%Z). set (r := (len mod stride)%Z).
  assert (Hdiv : len = (stride * n + r)%Z) by (apply Z.div_mod; lia).
  assert (Hr : (0 <= r < stride)%Z) by (apply Z.mod_pos_bound; lia).
  assert (Hn : (0 <= n)%Z) by (apply Z.div_pos; lia).
  set (s := Z.to_nat stride). set (nn := Z.to_nat n).
  assert (Hlength : length e = (nn * s + Z.to_nat r)%nat).
  { unfold nn, s. apply Nat2Z.inj. fold len.
    rewrite Nat2Z.inj_add, Nat2Z.inj_mul, !Z2Nat.id by lia. lia. }
  set (lenb := if (0 <? r)%Z then (n + 1)%Z else n).
  assert (Hlenb : (n <= lenb)%Z) by (unfold lenb; destruct (0 <? r)%Z; lia).
  replace (lenb <? 0)%Z with false by (symmetry; apply Z.ltb_ge; lia).
  set (E0 := repeat (zero (R := Q)) (Z.to_nat lenb)).
  destruct (@rebin_loop_total t e s nn 0%nat 0%nat E0 E0)
    as (T' & E' & Hloop & HlenE & Hzero & Hsum).
  - unfold E0. rewrite repeat_length. unfold nn. lia.
  - intros k _. apply nth_repeat_zero.
  - lia.
  - rewrite Hloop. cbn [Nat.add] in *.
    assert (HE0 : Qsum E0 == 0) by apply Qsum_repeat_zero.
    rewrite HE0 in Hsum. simpl skipn in Hsum.
    destruct (0 <? r)%Z eqn:Hrpos.
    + eexists _, _. split; [reflexivity|].
      rewrite Qsum_array_set.
      * rewrite Hzero by (fold nn; lia). fold nn. rewrite Hsum.
        rewrite sum_range_Qsum by lia.
        fold (Qsum (firstn (length e - nn * s) (skipn (nn * s) e))).
        rewrite (firstn_all2 (n := length e - nn * s) (skipn (nn * s) e))
          by (rewrite length_skipn; apply Nat.le_refl).
        rewrite <- (firstn_skipn (nn * s) e) at 3.
        rewrite Qsum_app. ring.
      * rewrite HlenE. unfold E0. rewrite repeat_length.
        apply Z.ltb_lt in Hrpos. unfold lenb. fold nn.
        replace (0 <? r)%Z with true by (symmetry; apply Z.ltb_lt; lia).
        unfold nn. lia.
    + eexists _, _. split; [reflexivity|].
      apply Z.ltb_ge in Hrpos.
      rewrite Hsum, firstn_all2 by lia. ring.
Qed.

Lemma mapM_finish_rebin (rebin_stride : Z) (l : list (list (Q * Q))) :
  (0 < rebin_stride)%Z ->
  exists outs,
    mapM (finish_peak true rebin_stride) l = Ok outs
    /\ Forall2 (fun o s12 => Qsum (snd o) == Qsum (map snd s12)) outs l.
Proof.
  intros Hpos. induction l as [|s12 l (outs & Houts & Hall)].
  - exists []. split; [reflexivity|constructor].
  - destruct (@rebin_waveform_total (map fst s12) (map snd s12) rebin_stride)
      as (T & E & Hok & Hsum);
      [rewrite !length_map; reflexivity | exact Hpos |].
    exists ((T, E) :: outs). split.
    + cbn [mapM]. unfold finish_peak at 1, columns. rewrite Hok.
      cbn [bind]. rewrite Houts. reflexivity.
    + constructor; [exact Hsum | exact Hall].
Qed.

(** X10.  In exact arithmetic, with a positive [rebin_stride],
    [find_S12] with rebinning returns the same peaks, under the same
    keys, as without rebinning, and each rebinned peak has the total
    energy of the peak it comes from. *)
Theorem find_S12_rebin_conserves_peak_energy
        (p0 : Q) (P' : list Q) (i0 : Z) (index' : list Z)
        (tmin tmax : Q) (lmin lmax stride rebin_stride : Z) :
  length P' = length index' ->
  (0 < rebin_stride)%Z ->
  exists S12L S12L_rebinned,
    find_S12 (p0 :: P') (i0 :: index')
             tmin tmax lmin lmax stride false rebin_stride = Ok S12L
    /\ find_S12 (p0 :: P') (i0 :: index')
                tmin tmax lmin lmax stride true rebin_stride
       = Ok S12L_rebinned
    /\ dict_keys S12L_rebinned = dict_keys S12L
    /\ Forall2 (fun TE te => Qsum (snd TE) == Qsum (snd te))
               (dict_values S12L_rebinned) (dict_values S12L).
Proof.
  intros Hlen Hpos. unfold find_S12. cbn [length].
  rewrite Hlen, Nat.eqb_refl. cbn [negb time_from_index map].
  rewrite !rearrange_spec by constructor.
  rewrite mapM_finish_no_rebin. cbn [bind app].
  set (kept := kept_peaks lmin lmax _).
  destruct (mapM_finish_rebin kept Hpos) as (outs & Houts & Hall).
  rewrite Houts. cbn [bind].
  eexists _, _. split; [reflexivity|]. split; [reflexivity|].
  assert (Hlens : length outs = length (map columns kept)).
  { rewrite length_map. eapply Forall2_length. exact Hall. }
  unfold dict_keys, dict_values.
  rewrite !map_fst_zip, !map_snd_zip by (symmetry; apply length_seq).
  split; [rewrite Hlens; reflexivity|].
  clear - Hall. induction Hall; simpl; constructor; assumption.
Qed.

End RebinExactArithmetic.

(** ** [wfzs] followed by [find_S12] *)

Section ZeroSuppressThenFind.
Context {R : Type} `{Arith R}.

Lemma find_S12_no_rebin_output
      (p0 : R) (P' : list R) (i0 : Z) (index' : list Z)
      (tmin tmax : R) (lmin lmax stride rebin_stride : Z) :
  length P' = length index' ->
  find_S12 (p0 :: P') (i0 :: index')
           tmin tmax lmin lmax stride false rebin_stride
  = Ok (reindexed
          (map columns
               (kept_peaks lmin lmax
                  (group_S12 tmin tmax stride i0 (mul (of_Z 25) (of_Z i0)) p0
                             (tail_samples index' P'))))).
Proof.
  intros Hlen. unfold find_S12. cbn [length].
  rewrite Hlen, Nat.eqb_refl. cbn [negb time_from_index map].
  rewrite rearrange_spec by constructor.
  rewrite mapM_finish_no_rebin. reflexivity.
Qed.

Lemma filter_nil_iff {A} (p : A -> bool) (l : list A) :
  filter p l = [] <-> Forall (fun x => p x = false) l.
Proof.
  induction l as [|x l IH]; simpl.
  - split; constructor.
  - destruct (p x) eqn:Hp.
    + split; [discriminate|]. intros Hall. inversion Hall; congruence.
    + rewrite IH. split.
      * intros Hall. constructor; assumption.
      * intros Hall. inversion Hall; assumption.
Qed.

(** X11.  [find_S12] (without rebinning) applied to the output of [wfzs]
    fails exactly when no sample of the waveform exceeds the threshold,
    and then with IndexError; the lengths of the two arrays always
    agree. *)
Theorem find_S12_after_wfzs_failures
        (wf : list R) (threshold tmin tmax : R)
        (lmin lmax stride rebin_stride : Z) (e : exn) :
  let (wfzs_ene, wfzs_indx) := wfzs wf threshold in
  find_S12 wfzs_ene wfzs_indx tmin tmax lmin lmax stride false rebin_stride
  = Raise e
  <-> e = IndexError /\ Forall (fun x => gtb x threshold = false) wf.
Proof.
  rewrite wfzs_spec.
  rewrite <- (filter_nil_iff (fun x => gtb x threshold) wf).
  pose proof (@map_snd_filter_combine nat R (fun x => gtb x threshold) wf
                (seq 0 (length wf)) (length_seq _ _)) as Hsnd.
  cbn beta in Hsnd. fold (above threshold wf) in Hsnd. rewrite <- Hsnd.
  destruct (above threshold wf) as [|[i0 p0] sel].
  - simpl. split.
    + intros Heq. injection Heq as <-. auto.
    + intros [-> _]. reflexivity.
  - cbn [map fst snd].
    rewrite find_S12_no_rebin_output by (rewrite !length_map; reflexivity).
    split; [discriminate|]. intros [_ Hnil]. discriminate.
Qed.

End ZeroSuppressThenFind.

Section ZeroSuppressThenFindExact.
Local Open Scope Q_scope.

Lemma time_of_position_not_before (tmin : Q) (l : list nat) :
  tmin <= 0 ->
  Forall (fun t => Qltb t tmin = false)
         (time_from_index (R := Q) (map Z.of_nat l)).
Proof.
  intros Htmin. unfold time_from_index. rewrite map_map.
  apply Forall_map. apply Forall_forall. intros i _.
  apply Qltb_ge. cbn [mul of_Z Q_arith].
  eapply Qle_trans; [exact Htmin|].
  rewrite <- inject_Z_mult. change 0 with (inject_Z 0).
  rewrite <- Zle_Qle. unfold step. lia.
Qed.

(** X12.  With [tmin <= 0], every peak that [find_S12] (without
    rebinning) returns for the output of [wfzs] has consecutive times at
    most 25 * stride apart: positions are never negative, so no sample is
    skipped and the gap test bounds every gap inside a peak. *)
Theorem find_S12_after_wfzs_gaps_within_stride
        (wf : list Q) (threshold tmin tmax : Q)
        (lmin lmax stride rebin_stride : Z)
        (S12L : dict (list Q * list Q)) :
  tmin <= 0 ->
  find_S12 (fst (wfzs wf threshold)) (snd (wfzs wf threshold))
           tmin tmax lmin lmax stride false rebin_stride = Ok S12L ->
  Forall (fun te => gaps_within (25 * inject_Z stride) (fst te))
         (dict_values S12L).
Proof.
  intros Htmin. rewrite wfzs_spec. cbn [fst snd].
  destruct (above threshold wf) as [|[i0 p0] sel]; [discriminate|].
  cbn [map fst snd].
  rewrite find_S12_no_rebin_output by (rewrite !length_map; reflexivity).
  intros Hok. injection Hok as <-.
  rewrite dict_values_reindexed. apply Forall_map.
  unfold kept_peaks. apply Forall_forall. intros s12 Hin.
  apply filter_In in Hin. destruct Hin as [Hin _].
  assert (Hg : Forall (fun s12 : list (Q * Q) =>
                         gaps_within (25 * inject_Z stride) (map fst s12))
                 (dict_values
                    (group_S12 tmin tmax stride (Z.of_nat i0)
                       (inject_Z 25 * inject_Z (Z.of_nat i0)) p0
                       (tail_samples
                          (map (fun ix => Z.of_nat (fst ix)) sel)
                          (map snd sel))))).
  { apply (@group_S12_gaps tmin tmax stride p0 (map snd sel)
             (Z.of_nat i0) (map (fun ix => Z.of_nat (fst ix)) sel)).
    - rewrite !length_map. reflexivity.
    - rewrite <- (map_map fst Z.of_nat). apply time_of_position_not_before.
      exact Htmin. }
  rewrite Forall_forall in Hg. apply Hg. exact Hin.
Qed.

End ZeroSuppressThenFindExact.

(** ** [time_from_index] *)

Section TimeOrder.
Local Open Scope Q_scope.

(** X13.  In exact arithmetic [time_from_index] keeps the number and the
    order of the samples: the k-th time is 25 times the k-th index, and
    strictly increasing indices give strictly increasing times. *)
Theorem time_from_index_increasing (indx : list Z) :
  StronglySorted Z.lt indx ->
  length (time_from_index (R := Q) indx) = length indx
  /\ Forall2 (fun t i => t == 25 * inject_Z i) (time_from_index indx) indx
  /\ StronglySorted Qlt (time_from_index indx).
Proof.
  intros Hs. unfold time_from_index. split; [apply length_map|]. split.
  - clear Hs. induction indx as [|i l IH]; simpl; constructor.
    + reflexivity.
    + exact IH.
  - induction Hs as [|i l Hs IH Hall]; simpl; constructor; [exact IH|].
    apply Forall_map. eapply Forall_impl; [|exact Hall].
    intros j Hij. cbn [mul of_Z Q_arith].
    rewrite <- !inject_Z_mult, <- Zlt_Qlt. unfold step. lia.
Qed.

End TimeOrder.

(** Three increasing indices. *)
Lemma time_from_index_increasing_witness :
  StronglySorted Qlt (time_from_index (R := Q) [3; 4; 10]).
Proof.
  apply (@time_from_index_increasing [3; 4; 10]).
  repeat constructor.
Defined.

(** ** [create_deconvolution_df]: rows and failures *)

Section DeconvolutionFrame.
Context {R : Type} `{Arith R}.

Lemma frame_rows event npeak :
  forall (X Y Zs E : list R),
    Forall (fun r => deco_event r = event /\ deco_npeak r = npeak
                     /\ In (deco_Z r) Zs /\ In (deco_E r) E)
           (frame event npeak X Y Zs E).
Proof.
  induction X as [|x X IH]; intros [|y Y] [|z Zs] [|e E]; simpl;
    try constructor.
  - simpl. auto.
  - eapply Forall_impl; [|apply IH]. simpl. intros r (? & ? & ? & ?). auto.
Qed.

Lemma frame_length event npeak :
  forall (X Y Zs E : list R),
    (length (frame event npeak X Y Zs E) <= length E)%nat.
Proof.
  induction X as [|x X IH]; intros [|y Y] [|z Zs] [|e E]; simpl; try lia.
  specialize (IH Y Zs E). lia.
Qed.

Lemma mask_select_inv {A} (a : list A) (sel : list bool) (s : list A) :
  mask_select a sel = Ok s ->
  length a = length sel /\ s = map fst (filter snd (combine a sel)).
Proof.
  unfold mask_select. destruct (Nat.eqb (length a) (length sel)) eqn:Hlen;
    [|discriminate].
  intros Hok. injection Hok as <-. apply Nat.eqb_eq in Hlen. auto.
Qed.

Lemma mask_select_map_filter (keep : R -> bool) (l : list R) :
  map fst (filter snd (combine l (map keep l))) = filter keep l.
Proof.
  induction l as [|x l IH]; simpl; [reflexivity|].
  destruct (keep x); simpl; rewrite IH; reflexivity.
Qed.

(** X14.  In two dimensions every row returned by
    [create_deconvolution_df] carries the event number, the peak number
    and the [Z] of the first row of the slice, in both cut modes. *)
Theorem create_deconvolution_df_rows_share_slice
        (h : cdst_row) (hits : list cdst_row) (deconv_e : list R)
        (pos : list (list R)) (cut_type : CutType) (e_cut : R)
        (df : list deco_row) :
  create_deconvolution_df (h :: hits) deconv_e pos cut_type e_cut 2 = Ok df ->
  Forall (fun r => deco_event r = cdst_event h
                   /\ deco_npeak r = cdst_npeak h
                   /\ deco_Z r = cdst_Z h) df.
Proof.
  unfold create_deconvolution_df.
  destruct (match cut_type with
            | abs => Ok (map (fun v => gtb v e_cut) deconv_e)
            | rel => m <- array_max deconv_e ;;
                     Ok (map (fun v => gtb (div v m) e_cut) deconv_e)
            end) as [sel|]; cbn [bind]; [|discriminate].
  destruct (mask_select deconv_e sel) as [dfE|]; cbn [bind]; [|discriminate].
  cbn [map first_unique bind Z.eqb Pos.eqb].
  destruct (item pos 0) as [p0|]; cbn [bind]; [|discriminate].
  destruct (mask_select p0 sel) as [dfX|]; cbn [bind]; [|discriminate].
  destruct (item pos 1) as [p1|]; cbn [bind]; [|discriminate].
  destruct (mask_select p1 sel) as [dfY|]; cbn [bind]; [|discriminate].
  intros Hok. injection Hok as <-.
  eapply Forall_impl; [|apply frame_rows].
  simpl. intros r (He & Hn & Hz & _). repeat split; try assumption.
  apply repeat_spec in Hz. exact Hz.
Qed.

(** X15.  In absolute mode no returned row has an energy at or below the
    cut: every row's energy is [> e_cut], whatever the number of
    dimensions, and there are at most as many rows as bins. *)
Theorem create_deconvolution_df_abs_above_cut
        (hits : list cdst_row) (deconv_e : list R)
        (pos : list (list R)) (e_cut : R) (n_dim : Z)
        (df : list deco_row) :
  create_deconvolution_df hits deconv_e pos abs e_cut n_dim = Ok df ->
  Forall (fun r => gtb (deco_E r) e_cut = true) df
  /\ (length df <= length deconv_e)%nat.
Proof.
  unfold create_deconvolution_df. cbn [bind].
  destruct (mask_select deconv_e _) as [dfE|] eqn:HE; cbn [bind];
    [|discriminate].
  apply mask_select_inv in HE. destruct HE as [_ HE].
  rewrite mask_select_map_filter in HE.
  destruct (first_unique (map cdst_event hits)) as [event|]; cbn [bind];
    [|discriminate].
  destruct (first_unique (map cdst_npeak hits)) as [npeak|]; cbn [bind];
    [|discriminate].
  destruct (if n_dim =? 2 then _ else _) as [dfZ|]; cbn [bind];
    [|discriminate].
  destruct (item pos 0) as [p0|]; cbn [bind]; [|discriminate].
  destruct (mask_select p0 _) as [dfX|]; cbn [bind]; [|discriminate].
  destruct (item pos 1) as [p1|]; cbn [bind]; [|discriminate].
  destruct (mask_select p1 _) as [dfY|]; cbn [bind]; [|discriminate].
  intros Hok. injection Hok as <-. split.
  - eapply Forall_impl; [|apply frame_rows].
    simpl. intros r (_ & _ & _ & Hin). subst dfE.
    apply filter_In in Hin. tauto.
  - etransitivity; [apply frame_length|]. subst dfE. apply filter_length_le.
Qed.

(** X16.  In two dimensions [create_deconvolution_df] succeeds exactly
    when the slice has at least one row, there are position arrays
    [pos[0]] and [pos[1]] as long as the image and, in relative mode, the
    image is not empty (an empty image has no maximum). *)
Theorem create_deconvolution_df_succeeds_iff
        (hits : list cdst_row) (deconv_e : list R)
        (pos : list (list R)) (cut_type : CutType) (e_cut : R) :
  (exists df,
      create_deconvolution_df hits deconv_e pos cut_type e_cut 2 = Ok df)
  <-> hits <> []
      /\ (cut_type = rel -> deconv_e <> [])
      /\ exists px py others,
           pos = px :: py :: others
           /\ length px = length deconv_e
           /\ length py = length deconv_e.
Proof.
  split.
  - intros [df Hok]. unfold create_deconvolution_df in Hok.
    assert (Hsel : exists keep,
               (cut_type = rel -> deconv_e <> [])
               /\ match cut_type with
                  | abs => Ok (map (fun v => gtb v e_cut) deconv_e)
                  | rel => m <- array_max deconv_e ;;
                           Ok (map (fun v => gtb (div v m) e_cut) deconv_e)
                  end = Ok (map keep deconv_e)).
    { destruct cut_type.
      - eexists. split; [discriminate|reflexivity].
      - destruct deconv_e as [|v d]; [discriminate|].
        eexists. split; [discriminate|reflexivity]. }
    destruct Hsel as (keep & Hrel & Hsel). rewrite Hsel in Hok.
    cbn [bind] in Hok.
    destruct (mask_select deconv_e _) as [dfE|]; cbn [bind] in Hok;
      [|discriminate].
    destruct hits as [|h hits]; [discriminate|].
    cbn [map first_unique bind Z.eqb Pos.eqb] in Hok.
    destruct pos as [|px [|py others]]; cbn [item nth_error bind] in Hok;
      try discriminate.
    + destruct (mask_select px _); discriminate.
    + destruct (mask_select px (map keep deconv_e)) as [dfX|] eqn:HX;
        cbn [bind] in Hok; [|discriminate].
      destruct (mask_select py (map keep deconv_e)) as [dfY|] eqn:HY;
        cbn [bind] in Hok; [|discriminate].
      apply mask_select_inv in HX. apply mask_select_inv in HY.
      rewrite length_map in HX, HY.
      split; [discriminate|]. split; [exact Hrel|].
      exists px, py, others. tauto.
  - intros (Hhits & Hrel & px & py & others & -> & Hx & Hy).
    destruct hits as [|h hits]; [contradiction|].
    assert (Hok : forall keep,
               mask_select deconv_e (map keep deconv_e) = Ok (filter keep deconv_e)
               /\ (exists dfX, mask_select px (map keep deconv_e) = Ok dfX)
               /\ (exists dfY, mask_select py (map keep deconv_e) = Ok dfY)).
    { intros keep. unfold mask_select.
      rewrite !length_map, Hx, Hy, Nat.eqb_refl.
      rewrite mask_select_map_filter. eauto. }
    assert (Hsel : exists keep,
               match cut_type with
               | abs => Ok (map (fun v => gtb v e_cut) deconv_e)
               | rel => m <- array_max deconv_e ;;
                        Ok (map (fun v => gtb (div v m) e_cut) deconv_e)
               end = Ok (map keep deconv_e)).
    { destruct cut_type.
      - eexists. reflexivity.
      - destruct deconv_e as [|v d]; [exfalso; apply Hrel; reflexivity|].
        eexists. reflexivity. }
    destruct Hsel as (keep & Hsel).
    destruct (Hok keep) as (HE & [dfX HX] & [dfY HY]).
    unfold create_deconvolution_df. rewrite Hsel. cbn [bind].
    remember (map keep deconv_e) as sel.
    rewrite HE. cbn. rewrite HX. cbn. rewrite HY. cbn. eauto.
Qed.

End DeconvolutionFrame.

(** ** The maximum of an image and the relative cut *)

Section RelativeCut.
Local Open Scope Q_scope.

Lemma maximum_Q (a b : Q) :
  maximum a b = if Qle_bool b a then a else b.
Proof.
  unfold maximum, geb, isnan. cbn [leb eqb Q_arith].
  rewrite Qeq_bool_refl. cbn [negb]. rewrite orb_false_r. reflexivity.
Qed.

Lemma fold_maximum_Q (l : list Q) :
  forall x,
    In (fold_left maximum l x) (x :: l)
    /\ x <= fold_left maximum l x
    /\ Forall (fun y => y <= fold_left maximum l x) l.
Proof.
  induction l as [|y l IH]; intros x; cbn [fold_left].
  - split; [left; reflexivity|]. split; [apply Qle_refl|constructor].
  - destruct (IH (maximum x y)) as (Hin & Hle & Hall).
    rewrite maximum_Q in *.
    destruct (Qle_bool y x) eqn:Hyx.
    + apply Qle_bool_iff in Hyx. split; [|split].
      * destruct Hin as [Heq|Hin]; [left; exact Heq|right; right; exact Hin].
      * exact Hle.
      * constructor; [|exact Hall]. eapply Qle_trans; eassumption.
    + assert (Hxy : x <= y).
      { apply Qlt_le_weak. apply Qnot_le_lt. intros Hc.
        apply Qle_bool_iff in Hc. congruence. }
      split; [|split].
      * destruct Hin as [Heq|Hin]; [right; left; exact Heq|].
        right; right; exact Hin.
      * eapply Qle_trans; eassumption.
      * constructor; [exact Hle|exact Hall].
Qed.

(** X17.  On rationals [array_max] returns an element of the array that
    no element exceeds; it fails (ValueError) on the empty array only. *)
Theorem array_max_is_maximum (a : list Q) :
  match array_max a with
  | Ok m => In m a /\ Forall (fun x => x <= m) a
  | Raise e => a = [] /\ e = ValueError
  end.
Proof.
  destruct a as [|x a]; cbn [array_max]; [auto|].
  destruct (fold_maximum_Q a x) as (Hin & Hle & Hall).
  split; [exact Hin|]. constructor; assumption.
Qed.

(** X18.  In relative mode, in exact arithmetic, an image with a positive
    maximum and a cut below one always leaves a hit: the brightest bin
    has ratio one and survives, so the frame returned is not empty. *)
Theorem create_deconvolution_df_rel_keeps_brightest
        (h : cdst_row) (hits : list cdst_row) (deconv_e px py : list Q)
        (e_cut m : Q) :
  length px = length deconv_e ->
  length py = length deconv_e ->
  array_max deconv_e = Ok m ->
  0 < m ->
  e_cut < 1 ->
  exists df,
    create_deconvolution_df (h :: hits) deconv_e [px; py] rel e_cut 2 = Ok df
    /\ exists r, In r df /\ deco_E r = m.
Proof.
  intros Hx Hy Hm Hpos Hcut.
  rewrite (create_deconvolution_df_rel h hits deconv_e px py e_cut Hx Hy Hm).
  eexists. split; [reflexivity|].
  assert (Hin : In m deconv_e).
  { destruct deconv_e as [|x a]; [discriminate|].
    cbn [array_max] in Hm. injection Hm as <-.
    apply (fold_maximum_Q a x). }
  assert (Hkeep : gtb (div m m) e_cut = true).
  { unfold gtb. cbn [ltb div Q_arith]. apply Qltb_lt.
    assert (Hone : m / m == 1) by (field; intros Hc; rewrite Hc in Hpos;
                                   exact (Qlt_irrefl 0 Hpos)).
    rewrite Hone. exact Hcut. }
  unfold retained_rows.
  clear Hm. revert px py Hx Hy.
  induction deconv_e as [|v d IH]; intros [|x px] [|y py] Hx Hy;
    simpl in *; try discriminate; try contradiction.
  destruct Hin as [->|Hin].
  - cbn [gtb] in Hkeep. unfold gtb. rewrite Hkeep.
    eexists. split; [left; reflexivity|]. reflexivity.
  - destruct (IH Hin px py) as (r & Hr & HE); [lia|lia|].
    exists r. split; [|exact HE].
    destruct (Qltb e_cut (v / m)); [right|]; exact Hr.
Qed.

End RelativeCut.

(** The relative cut on the image 1/10, 1/2, 1. *)
Lemma create_deconvolution_df_rel_keeps_brightest_witness :
  exists df,
    create_deconvolution_df
      [cdst_of_energy 1%Q] [1 # 10; 1 # 2; 1]%Q
      [[0; 1; 2]%Q; [0; 0; 0]%Q] rel (4 # 10)%Q 2 = Ok df
    /\ exists r, In r df /\ deco_E r = 1%Q.
Proof.
  apply (@create_deconvolution_df_rel_keeps_brightest
           (cdst_of_energy 1%Q) [] [1 # 10; 1 # 2; 1]%Q
           [0; 1; 2]%Q [0; 0; 0]%Q (4 # 10)%Q 1%Q);
    reflexivity.
Defined.

(** ** [distribute_energy]: shares *)

Section DistributeShares.
Local Open Scope Q_scope.

Lemma Qsum_rescaled (s tot : Q) (l : list Q) :
  ~ s == 0 ->
  Qsum (map (fun x => x / s * tot) l) == Qsum l / s * tot.
Proof.
  intros Hs.
  rewrite (Qsum_ext (fun x => x / s * tot) (fun x => x * (tot / s))).
  - rewrite Qsum_scaled. field. exact Hs.
  - intros x. field. exact Hs.
Qed.

Lemma distribute_energy_E (df : list deco_row) (cdst : list cdst_row)
      (energy_type : HitEnergy) :
  map deco_E (distribute_energy df cdst energy_type)
  = map (fun x => x / Qsum (map deco_E df)
                  * Qsum (map (energy energy_type) cdst))
        (map deco_E df).
Proof.
  unfold distribute_energy. rewrite !series_sum_Qsum, !map_map.
  reflexivity.
Qed.

(** X19.  [distribute_energy] changes the energy column only and shares
    the energy out in proportion to the deconvolved energies: the frame
    keeps its rows, event and peak numbers and positions, and in exact
    arithmetic, for a non-zero deconvolved sum, any two rows [i] and [j]
    satisfy [E'_i * E_j == E'_j * E_i]. *)
Theorem distribute_energy_proportional
        (df : list deco_row) (cdst : list cdst_row)
        (energy_type : HitEnergy) :
  ~ series_sum (map deco_E df) == 0 ->
  let df' := distribute_energy df cdst energy_type in
  Forall2 (fun r' r => deco_event r' = deco_event r
                       /\ deco_npeak r' = deco_npeak r
                       /\ deco_X r' = deco_X r
                       /\ deco_Y r' = deco_Y r
                       /\ deco_Z r' = deco_Z r) df' df
  /\ forall i j ri rj ri' rj',
       nth_error df i = Some ri -> nth_error df j = Some rj ->
       nth_error df' i = Some ri' -> nth_error df' j = Some rj' ->
       deco_E ri' * deco_E rj == deco_E rj' * deco_E ri.
Proof.
  intros Hnz df'. rewrite series_sum_Qsum in Hnz. split.
  - unfold df', distribute_energy.
    generalize (series_sum (map deco_E df)) as s.
    generalize (series_sum (map (energy energy_type) cdst)) as tot.
    intros tot s. clear.
    induction df as [|r df IH]; simpl; constructor.
    + simpl. auto.
    + exact IH.
  - intros i j ri rj ri' rj' Hi Hj Hi' Hj'.
    unfold df', distribute_energy in Hi', Hj'.
    rewrite nth_error_map in Hi', Hj'. rewrite Hi in Hi'. rewrite Hj in Hj'.
    simpl in Hi', Hj'. injection Hi' as <-. injection Hj' as <-.
    cbn [set_E deco_E]. rewrite !series_sum_Qsum.
    cbn [mul div Q_arith]. field. exact Hnz.
Qed.

(** X20.  In exact arithmetic [distribute_energy] is idempotent: with a
    non-zero deconvolved sum and a non-zero sensor energy, distributing
    the same sensor energy a second time leaves every hit energy as it
    is. *)
Theorem distribute_energy_idempotent
        (df : list deco_row) (cdst : list cdst_row)
        (energy_type : HitEnergy) :
  ~ series_sum (map deco_E df) == 0 ->
  ~ series_sum (map (energy energy_type) cdst) == 0 ->
  let once := distribute_energy df cdst energy_type in
  let twice := distribute_energy once cdst energy_type in
  Forall2 Qeq (map deco_E twice) (map deco_E once).
Proof.
  intros Hs Ht once twice. rewrite series_sum_Qsum in Hs, Ht.
  unfold twice. rewrite distribute_energy_E.
  set (tot := Qsum (map (energy energy_type) cdst)) in *.
  assert (Hsum : Qsum (map deco_E once) == tot).
  { unfold once. rewrite distribute_energy_E. fold tot.
    rewrite Qsum_rescaled by exact Hs. field. exact Hs. }
  generalize (Qsum (map deco_E once)) Hsum. intros s' Hs'. clear Hsum.
  induction (map deco_E once) as [|x l IH]; cbn [map]; constructor.
  - rewrite Hs'. field. exact Ht.
  - exact IH.
Qed.

End DistributeShares.

(** Two hits of energies 1 and 2, sensors of energies 3 and 4. *)
Lemma distribute_energy_proportional_witness :
  let df := [deco_of_energy 1%Q; deco_of_energy 2%Q] in
  let cdst := [cdst_of_energy 3%Q; cdst_of_energy 4%Q] in
  let df' := distribute_energy df cdst Ec in
  (deco_E (nth 0 df' (deco_of_energy 0)) * 2
   == deco_E (nth 1 df' (deco_of_energy 0)) * 1)%Q.
Proof.
  cbv zeta.
  assert (Hnz : ~ (series_sum
                     (map deco_E [deco_of_energy 1%Q; deco_of_energy 2%Q])
                   == 0)%Q).
  { vm_compute. intros Heq. discriminate Heq. }
  exact (proj2 (@distribute_energy_proportional
                  [deco_of_energy 1%Q; deco_of_energy 2%Q]
                  [cdst_of_energy 3%Q; cdst_of_energy 4%Q] Ec Hnz)
               0%nat 1%nat (deco_of_energy 1%Q) (deco_of_energy 2%Q)
               _ _ eq_refl eq_refl eq_refl eq_refl).
Defined.

Lemma distribute_energy_idempotent_witness :
  let df := [deco_of_energy 1%Q; deco_of_energy 2%Q] in
  let cdst := [cdst_of_energy 3%Q; cdst_of_energy 4%Q] in
  Forall2 Qeq
    (map deco_E (distribute_energy (distribute_energy df cdst Ec) cdst Ec))
    (map deco_E (distribute_energy df cdst Ec)).
Proof.
  cbv zeta.
  apply (@distribute_energy_idempotent
           [deco_of_energy 1%Q; deco_of_energy 2%Q]
           [cdst_of_energy 3%Q; cdst_of_energy 4%Q] Ec).
  - vm_compute. intros Heq. discriminate Heq.
  - vm_compute. intros Heq. discriminate Heq.
Defined.

(** ** [apply_deconvolution] *)

Section GroupBy.

Lemma insert_sorted_permutation {A K} (key : A -> K) (lt : K -> K -> bool)
      (x : A) (l : list A) :
  Permutation (insert_sorted key lt x l) (x :: l).
Proof.
  induction l as [|y l IH]; simpl; [reflexivity|].
  destruct (lt (key y) (key x)); [|reflexivity].
  rewrite IH. apply perm_swap.
Qed.

Lemma sorted_asc_permutation {A K} (key : A -> K) (lt : K -> K -> bool)
      (l : list A) :
  Permutation (sorted_asc key lt l) l.
Proof.
  induction l as [|x l IH]; simpl; [reflexivity|].
  rewrite insert_sorted_permutation, IH. reflexivity.
Qed.

Lemma unique_Z_In (s : list Z) (k : Z) : In k (unique_Z s) <-> In k s.
Proof.
  induction s as [|x s IH]; simpl; [tauto|].
  rewrite filter_In, IH, negb_true_iff, Z.eqb_neq.
  destruct (Z.eq_dec x k); [tauto|]. split.
  - intros [Heq|[Hin _]]; auto.
  - intros [Heq|Hin]; [auto|]. right. split; [exact Hin|congruence].
Qed.

Lemma unique_Z_NoDup (s : list Z) : NoDup (unique_Z s).
Proof.
  induction s as [|x s IH]; simpl; constructor.
  - rewrite filter_In, negb_true_iff, Z.eqb_neq. tauto.
  - apply NoDup_filter. exact IH.
Qed.

Lemma mapM_all_ok {A B} (f : A -> result B) (l : list A) :
  (forall x, In x l -> exists y, f x = Ok y) ->
  exists ys, mapM f l = Ok ys /\ length ys = length l.
Proof.
  induction l as [|x l IH]; intros Hf.
  - exists []. auto.
  - destruct (Hf x (or_introl eq_refl)) as [y Hy].
    destruct IH as (ys & Hys & Hlen).
    { intros x' Hin. apply Hf. right. exact Hin. }
    exists (y :: ys). cbn [mapM]. rewrite Hy. cbn [bind]. rewrite Hys.
    simpl. auto.
Qed.

Lemma mapM_inv {A B} (f : A -> result B) (l : list A) (ys : list B) :
  mapM f l = Ok ys -> Forall2 (fun x y => f x = Ok y) l ys.
Proof.
  revert ys. induction l as [|x l IH]; intros ys; cbn [mapM].
  - intros Hok. injection Hok as <-. constructor.
  - destruct (f x) as [y|] eqn:Hy; cbn [bind]; [|discriminate].
    destruct (mapM f l) as [ys'|]; cbn [bind]; [|discriminate].
    intros Hok. injection Hok as <-. constructor; [exact Hy|].
    apply IH. reflexivity.
Qed.

Lemma mapM_ok_each {A B} (f : A -> result B) (l : list A) (ys : list B) :
  mapM f l = Ok ys -> forall x, In x l -> exists y, f x = Ok y.
Proof.
  intros Hok. apply mapM_inv in Hok.
  induction Hok as [|x y l ys Hxy _ IH]; intros x' Hin.
  - destruct Hin.
  - destruct Hin as [<-|Hin]; [eauto|]. apply IH. exact Hin.
Qed.

End GroupBy.

Section ApplyDeconvolutionExact.
Local Open Scope Q_scope.
Variable deconvolve_hits :
  list (cdst_row (R := Q)) -> Q -> result (list (deco_row (R := Q))).
Variable energy_type : HitEnergy.

Lemma groupby_npeak_keys (df : list (cdst_row (R := Q))) :
  NoDup (map fst (groupby_npeak df))
  /\ (forall r, In r df -> In (cdst_npeak r) (map fst (groupby_npeak df)))
  /\ (forall g, In g (groupby_npeak df) ->
        snd g = filter (fun r => (cdst_npeak r =? fst g)%Z) df
        /\ snd g <> []).
Proof.
  unfold groupby_npeak. rewrite map_map. cbn [fst]. rewrite map_id.
  set (keys := sorted_asc _ _ _).
  assert (Hperm : Permutation keys (unique_Z (map cdst_npeak df)))
    by apply sorted_asc_permutation.
  split; [|split].
  - eapply Permutation_NoDup; [symmetry; exact Hperm|].
    apply unique_Z_NoDup.
  - intros r Hin. eapply Permutation_in; [symmetry; exact Hperm|].
    apply unique_Z_In. apply in_map. exact Hin.
  - intros g Hin. apply in_map_iff in Hin. destruct Hin as (k & <- & Hk).
    cbn [fst snd]. split; [reflexivity|].
    eapply Permutation_in in Hk; [|exact Hperm].
    apply (proj1 (unique_Z_In _ _)) in Hk. apply in_map_iff in Hk.
    destruct Hk as (r & Hr & Hin).
    intros Hnil.
    assert (Hrin : In r (filter (fun r => (cdst_npeak r =? k)%Z) df)).
    { apply filter_In. split; [exact Hin|]. apply Z.eqb_eq. exact Hr. }
    rewrite Hnil in Hrin. exact Hrin.
Qed.

Lemma groupby_Z_nonempty (hits : list (cdst_row (R := Q))) :
  hits <> [] -> groupby_Z hits <> [].
Proof.
  intros Hne. unfold groupby_Z.
  set (keys := unique _).
  assert (Hkeys : keys <> []).
  { unfold keys. destruct hits as [|r hits]; [contradiction|].
    cbn [map filter]. unfold isnan at 1. cbn [eqb Q_arith].
    rewrite Qeq_bool_refl. cbn [negb unique]. discriminate. }
  intros Hnil. apply map_eq_nil in Hnil.
  apply Hkeys. apply Permutation_nil.
  rewrite <- Hnil. apply sorted_asc_permutation.
Qed.

(** X21.  [apply_deconvolution] cannot process an event without rows:
    there is nothing to concatenate and it fails with ValueError, which
    is what the [check_nonempty_dataframe] filter of the city guards
    against.  On an event that passes this filter it returns, in exact
    arithmetic, exactly when [deconvolve_hits] returns on every slice of
    the event: every group of equal [Z] of every peak, with its
    normalised charges. *)
Theorem apply_deconvolution_needs_rows (df : list (cdst_row (R := Q))) :
  (check_nonempty_dataframe df = false ->
   apply_deconvolution deconvolve_hits energy_type df = Raise ValueError)
  /\ (check_nonempty_dataframe df = true ->
      ((forall peak slice,
           In peak (groupby_npeak df) ->
           In slice (groupby_Z (normalise_Q (snd peak))) ->
           exists d, deconvolve_hits (snd slice) (fst slice) = Ok d)
       <-> exists deco,
             apply_deconvolution deconvolve_hits energy_type df = Ok deco)).
Proof.
  split.
  - destruct df; [reflexivity|discriminate].
  - intros Hne.
    assert (Hdf : df <> []) by (destruct df; [discriminate|discriminate]).
    destruct (groupby_npeak_keys df) as (_ & Hcover & Hgroups).
    unfold apply_deconvolution. split.
    + intros Hslices.
      destruct (mapM_all_ok
                  (fun g : Z * list cdst_row =>
                     deconvolve_peak deconvolve_hits energy_type (snd g))
                  (groupby_npeak df)) as (deco_dst & Hok & Hlen).
      * intros g Hin. destruct (Hgroups g Hin) as [_ Hg].
        unfold deconvolve_peak, deconvolved_hits_of.
        destruct (mapM_all_ok
                    (fun g : Q * list cdst_row =>
                       deconvolve_hits (snd g) (fst g))
                    (groupby_Z (normalise_Q (snd g)))) as (frames & Hf & Hl).
        { intros s Hs. apply (Hslices g s Hin Hs). }
        rewrite Hf. cbn [bind].
        assert (Hframes : frames <> []).
        { intros Hnil. subst frames. simpl in Hl. symmetry in Hl.
          apply length_zero_iff_nil in Hl. revert Hl.
          apply groupby_Z_nonempty. unfold normalise_Q.
          intros Hnil. apply map_eq_nil in Hnil. exact (Hg Hnil). }
        destruct frames as [|f frames]; [contradiction|].
        cbn [pd_concat bind]. eauto.
      * rewrite Hok. cbn [bind].
        destruct deco_dst as [|d deco_dst]; [|cbn [pd_concat]; eauto].
        exfalso. simpl in Hlen. symmetry in Hlen.
        apply length_zero_iff_nil in Hlen.
        destruct df as [|r df]; [contradiction|].
        pose proof (Hcover r (or_introl eq_refl)) as Hin.
        rewrite Hlen in Hin. exact Hin.
    + intros [deco Hdeco] peak slice Hpeak Hslice.
      destruct (mapM (fun g : Z * list cdst_row =>
                        deconvolve_peak deconvolve_hits energy_type (snd g))
                     (groupby_npeak df)) as [deco_dst|] eqn:Hok;
        cbn [bind] in Hdeco; [|discriminate].
      destruct (mapM_ok_each _ _ Hok peak Hpeak) as [d Hd].
      cbn beta in Hd. unfold deconvolve_peak, deconvolved_hits_of in Hd.
      destruct (mapM (fun g : Q * list cdst_row =>
                        deconvolve_hits (snd g) (fst g))
                     (groupby_Z (normalise_Q (snd peak))))
        as [frames|] eqn:Hf; cbn [bind] in Hd; [|discriminate].
      apply (mapM_ok_each _ _ Hf slice Hslice).
Qed.

End ApplyDeconvolutionExact.

Section EventEnergy.
Local Open Scope Q_scope.
Variable deconvolve_hits :
  list (cdst_row (R := Q)) -> Q -> result (list (deco_row (R := Q))).
Variable energy_type : HitEnergy.

Lemma Qsum_map_concat {A} (f : A -> Q) (ls : list (list A)) :
  Qsum (map f (concat ls)) == Qsum (map (fun l => Qsum (map f l)) ls).
Proof.
  induction ls as [|l ls IH]; simpl; [reflexivity|].
  rewrite map_app, Qsum_app, Qsum_cons, IH. reflexivity.
Qed.

Lemma Qsum_map_plus {A} (f g : A -> Q) (l : list A) :
  Qsum (map (fun x => f x + g x) l) == Qsum (map f l) + Qsum (map g l).
Proof.
  induction l as [|x l IH]; simpl.
  - unfold Qsum. simpl. ring.
  - rewrite !Qsum_cons, IH. ring.
Qed.

Lemma Qsum_map_ext_in {A} (f g : A -> Q) (l : list A) :
  (forall x, In x l -> f x == g x) -> Qsum (map f l) == Qsum (map g l).
Proof.
  induction l as [|x l IH]; intros Hfg; simpl; [reflexivity|].
  rewrite !Qsum_cons. rewrite (Hfg x) by (left; reflexivity).
  rewrite IH; [reflexivity|]. intros y Hin. apply Hfg. right. exact Hin.
Qed.

Lemma Qsum_indicator (a : Z) (v : Q) (K : list Z) :
  NoDup K ->
  Qsum (map (fun k => if (a =? k)%Z then v else 0) K)
  == if in_dec Z.eq_dec a K then v else 0.
Proof.
  intros Hnd. induction Hnd as [|k K' Hk Hnd IH].
  - simpl. reflexivity.
  - cbn [map]. rewrite Qsum_cons, IH.
    destruct (in_dec Z.eq_dec a (k :: K')) as [Hin|Hnin];
      destruct (in_dec Z.eq_dec a K') as [Hin'|Hnin'];
      destruct (Z.eqb_spec a k) as [Heq|Hne];
      try subst a; try ring; exfalso;
      first [ exact (Hk Hin')
            | apply Hnin; left; reflexivity
            | apply Hnin; right; exact Hin'
            | destruct Hin as [Heq'|Hin]; [congruence|exact (Hnin' Hin)] ].
Qed.

(** Grouping rows by a key that takes each value of [K] once splits the
    total of a column into the totals of the groups. *)
Lemma Qsum_groups {A} (key : A -> Z) (f : A -> Q) (K : list Z)
      (l : list A) :
  NoDup K ->
  (forall r, In r l -> In (key r) K) ->
  Qsum (map (fun k => Qsum (map f (filter (fun r => (key r =? k)%Z) l))) K)
  == Qsum (map f l).
Proof.
  intros Hnd. induction l as [|r l IH]; intros Hcover.
  - cbn [filter map]. clear Hnd Hcover.
    induction K as [|k K IHK]; [reflexivity|].
    cbn [map]. rewrite Qsum_cons, IHK. unfold Qsum. simpl. ring.
  - assert (Hind : Qsum (map (fun k => if (key r =? k)%Z then f r else 0) K)
                   == f r).
    { rewrite Qsum_indicator by exact Hnd.
      destruct (in_dec Z.eq_dec (key r) K) as [_|Hnin]; [reflexivity|].
      exfalso. apply Hnin. apply Hcover. left. reflexivity. }
    cbn [map]. rewrite Qsum_cons, <- IH
      by (intros r' Hin; apply Hcover; right; exact Hin).
    rewrite <- Hind at 1. rewrite <- Qsum_map_plus.
    apply Qsum_map_ext_in. intros k _. cbn [filter].
    destruct (key r =? k)%Z; cbn [map]; [apply Qsum_cons|ring].
Qed.

Lemma energy_normalise_Q (hits : list (cdst_row (R := Q))) :
  map (energy energy_type) (normalise_Q hits) = map (energy energy_type) hits.
Proof.
  unfold normalise_Q. rewrite map_map. apply map_ext.
  intros r. destruct energy_type; reflexivity.
Qed.

(** X22.  [apply_deconvolution] conserves the energy of the event.  In
    exact arithmetic, if it returns and the deconvolved energies of every
    peak have a non-zero sum, the energies of all returned hits add up to
    the sum of the sensor energies (of the configured type) over the
    whole event. *)
Theorem apply_deconvolution_conserves_event_energy
        (df : list (cdst_row (R := Q))) (deco : list (deco_row (R := Q))) :
  apply_deconvolution deconvolve_hits energy_type df = Ok deco ->
  (forall g d,
      In g (groupby_npeak df) ->
      deconvolved_hits_of deconvolve_hits (normalise_Q (snd g)) = Ok d ->
      ~ series_sum (map deco_E d) == 0) ->
  series_sum (map deco_E deco) == series_sum (map (energy energy_type) df).
Proof.
  intros Hok Hnz. rewrite !series_sum_Qsum.
  unfold apply_deconvolution in Hok.
  destruct (mapM _ (groupby_npeak df)) as [deco_dst|] eqn:Hmap;
    cbn [bind] in Hok; [|discriminate].
  assert (Hdeco : deco = concat deco_dst).
  { destruct deco_dst; [discriminate|]. cbn [pd_concat] in Hok.
    injection Hok as <-. reflexivity. }
  subst deco. clear Hok. apply mapM_inv in Hmap.
  destruct (groupby_npeak_keys df) as (Hnd & Hcover & Hgroups).
  rewrite Qsum_map_concat.
  rewrite <- (@Qsum_groups _ cdst_npeak (energy energy_type) _ df
                           Hnd Hcover).
  rewrite map_map. clear Hnd Hcover.
  revert Hmap Hnz Hgroups. generalize (groupby_npeak df) as groups.
  intros groups Hmap. induction Hmap as [|g d groups dst Hg Hrest IH];
    intros Hnz Hgroups.
  - reflexivity.
  - cbn [map]. rewrite !Qsum_cons.
    rewrite IH.
    2:{ intros g' d' Hin. apply Hnz. right. exact Hin. }
    2:{ intros g' Hin. apply Hgroups. right. exact Hin. }
    destruct (Hgroups g (or_introl eq_refl)) as [Hsnd _]. rewrite <- Hsnd.
    unfold deconvolve_peak in Hg.
    destruct (deconvolved_hits_of deconvolve_hits (normalise_Q (snd g)))
      as [dh|] eqn:Hdh; cbn [bind] in Hg; [|discriminate].
    injection Hg as <-.
    pose proof (Hnz g dh (or_introl eq_refl) Hdh) as Hs.
    rewrite series_sum_Qsum in Hs.
    rewrite distribute_energy_E, Qsum_rescaled by exact Hs.
    rewrite energy_normalise_Q.
    assert (Hone : Qsum (map deco_E dh) / Qsum (map deco_E dh) == 1)
      by (field; exact Hs).
    rewrite Hone. ring.
Qed.

End EventEnergy.

(** ** Track summaries and relabelled hits *)

Section SummaryTotals.
Local Open Scope Q_scope.
Variables (hit geometry_info : Type).
Variable geometry : track (R := Q) hit -> geometry_info.

Lemma Qsum_permutation (l l' : list Q) :
  Permutation l l' -> Qsum l == Qsum l'.
Proof.
  induction 1 as [|x l l' Hp IH|x y l|l l' l'' Hp1 IH1 Hp2 IH2].
  - reflexivity.
  - rewrite !Qsum_cons, IH. reflexivity.
  - rewrite !Qsum_cons. ring.
  - rewrite IH1. exact IH2.
Qed.

Lemma track_energy_Qsum (t : track (R := Q) hit) :
  track_energy t = Qsum (map Ehits (nodes t)).
Proof. reflexivity. Qed.

(** X23.  In exact arithmetic the energies of the summary rows add up to
    the energy of all voxels of all tracks: sorting and summarising
    neither loses nor counts twice any voxel energy. *)
Theorem track_summaries_total_energy (tracks : list (track hit)) :
  Qsum (map sum_energy (track_summaries geometry tracks))
  == Qsum (map Ehits (flat_map nodes tracks)).
Proof.
  unfold track_summaries.
  set (ordered := sorted track_energy ltb tracks true).
  rewrite map_map.
  transitivity (Qsum (map track_energy (map snd (enumerate 0 ordered)))).
  { rewrite map_map. apply Qsum_map_ext_in. intros [c t] _. reflexivity. }
  rewrite enumerate_values.
  transitivity (Qsum (map track_energy tracks)).
  { apply Qsum_permutation. apply Permutation_map.
    apply (sorted_reverse_perm track_energy). }
  clear ordered. induction tracks as [|t l IH]; simpl; [reflexivity|].
  rewrite Qsum_cons, IH, map_app, Qsum_app, track_energy_Qsum. reflexivity.
Qed.

End SummaryTotals.

Section RelabelledHits.
Context {R : Type} `{Arith R}.
Variables (hit geometry_info : Type).
Variable geometry : track (R := R) hit -> geometry_info.

Lemma sorted_permutation {A K} (key : A -> K) (lt : K -> K -> bool)
      (l : list A) (reverse : bool) :
  Permutation (sorted key lt l reverse) l.
Proof.
  unfold sorted. destruct reverse.
  - rewrite <- Permutation_rev, sorted_asc_permutation.
    symmetry. apply Permutation_rev.
  - apply sorted_asc_permutation.
Qed.

Lemma enumerate_ids {A} (l : list A) :
  forall c ct, In ct (enumerate c l) -> (c <= fst ct < c + length l)%nat.
Proof.
  induction l as [|x l IH]; intros c ct; simpl; [tauto|].
  intros [<-|Hin]; [simpl; lia|]. apply IH in Hin. lia.
Qed.

Lemma hits_with_id (l : list (track (R := R) hit)) :
  forall c k t,
    nth_error l k = Some t ->
    length (filter (fun ih : nat * hit => Nat.eqb (fst ih) (c + k))
                   (flat_map (fun ct : nat * track hit =>
                                let (tID, t) := ct in
                                map (fun h => (tID, h)) (hits_of t))
                             (enumerate c l)))
    = length (hits_of t).
Proof.
  induction l as [|t0 l IH]; intros c k t Hnth.
  - destruct k; discriminate.
  - cbn [enumerate flat_map]. rewrite filter_app, length_app.
    destruct k as [|k].
    + injection Hnth as <-. rewrite Nat.add_0_r.
      assert (Hhere : forall hs : list hit,
                 filter (fun ih : nat * hit => Nat.eqb (fst ih) c)
                        (map (fun h => (c, h)) hs)
                 = map (fun h => (c, h)) hs).
      { induction hs as [|h hs IHh]; simpl; [reflexivity|].
        rewrite Nat.eqb_refl, IHh. reflexivity. }
      rewrite Hhere, length_map.
      assert (Hlater : filter (fun ih : nat * hit => Nat.eqb (fst ih) c)
                (flat_map (fun ct : nat * track hit =>
                             let (tID, t) := ct in
                             map (fun h => (tID, h)) (hits_of t))
                          (enumerate (S c) l)) = []).
      { apply filter_nil_iff. apply Forall_forall. intros [i h] Hin.
        apply in_flat_map in Hin. destruct Hin as ([c' t'] & Hct & Hin).
        apply in_map_iff in Hin. destruct Hin as (h' & Heq & _).
        injection Heq as <- <-. apply enumerate_ids in Hct.
        cbn [fst] in *. apply Nat.eqb_neq. lia. }
      rewrite Hlater. simpl. lia.
    + simpl in Hnth.
      assert (Hnone : forall hs : list hit,
                 filter (fun ih : nat * hit => Nat.eqb (fst ih) (c + S k))
                        (map (fun h => (c, h)) hs) = []).
      { induction hs as [|h hs IHh]; simpl; [reflexivity|].
        replace (Nat.eqb c (c + S k)) with false
          by (symmetry; apply Nat.eqb_neq; lia).
        exact IHh. }
      rewrite Hnone. cbn [length Nat.add].
      replace (c + S k)%nat with (S c + k)%nat by lia.
      apply IH. exact Hnth.
Qed.

Lemma relabelled_hits_erase (l : list (track (R := R) hit)) :
  forall c,
    map snd (flat_map (fun ct : nat * track hit =>
                         let (tID, t) := ct in
                         map (fun h => (tID, h)) (hits_of t))
                      (enumerate c l))
    = flat_map (@hits_of R hit) l.
Proof.
  induction l as [|t l IH]; intros c; simpl; [reflexivity|].
  rewrite map_app, map_map. cbn [snd]. rewrite map_id, IH. reflexivity.
Qed.

(** X24.  The relabelled hit collection holds every hit of every track
    exactly once; every new [track_id] is a rank below the number of
    tracks; and the number of hits relabelled with the rank [c] is the
    [numb_of_hits] of the summary row number [c], whose [trackID] is
    [c]. *)
Theorem track_hits_relabelled (tracks : list (track hit)) :
  let hits := track_hits tracks in
  let rows := track_summaries geometry tracks in
  Permutation (map snd hits) (flat_map (@hits_of R hit) tracks)
  /\ Forall (fun ih => (fst ih < length tracks)%nat) hits
  /\ forall c row,
       nth_error rows c = Some row ->
       trackID row = c
       /\ length (filter (fun ih => Nat.eqb (fst ih) c) hits)
          = numb_of_hits row.
Proof.
  intros hits rows. unfold hits, rows, track_hits, track_summaries.
  set (ordered := sorted track_energy ltb tracks true).
  assert (Hperm : Permutation ordered tracks) by apply sorted_permutation.
  split; [|split].
  - rewrite relabelled_hits_erase.
    apply Permutation_flat_map. exact Hperm.
  - apply Forall_forall. intros [i h] Hin.
    apply in_flat_map in Hin. destruct Hin as ([c t] & Hct & Hin).
    apply in_map_iff in Hin. destruct Hin as (h' & Heq & _).
    injection Heq as <- <-. apply enumerate_ids in Hct. cbn [fst] in *.
    rewrite <- (Permutation_length Hperm). lia.
  - intros c row Hrow. rewrite nth_error_map in Hrow.
    destruct (nth_error (enumerate 0 ordered) c) as [[c' t]|] eqn:Hct;
      [|discriminate].
    injection Hrow as <-. cbn [trackID numb_of_hits].
    assert (Hnth : forall (l : list (track (R := R) hit)) s k ct,
               nth_error (enumerate s l) k = Some ct ->
               fst ct = (s + k)%nat /\ nth_error l k = Some (snd ct)).
    { induction l as [|x l IHl]; intros s k ct Hk.
      - destruct k; discriminate.
      - destruct k as [|k]; simpl in Hk.
        + injection Hk as <-. simpl. split; [lia|reflexivity].
        + apply IHl in Hk. simpl. destruct Hk. split; [lia|assumption]. }
    apply Hnth in Hct. cbn [fst snd Nat.add] in Hct.
    destruct Hct as [-> Ht]. split; [reflexivity|].
    apply (hits_with_id ordered 0 c Ht).
Qed.

End RelabelledHits.

(** ** The dimension checks of the city *)

(** X25.  The dimension checks of [beersheba] accept a configuration
    exactly when [sample_width], [bin_size] and [diffusion] all have
    [n_dim] entries and [n_dim] is at most 2 (so [n_dim] is 0, 1 or 2);
    NotImplementedError is raised exactly when the three lengths match an
    [n_dim] above 2, a length mismatch taking precedence with
    ValueError. *)
Theorem check_dimensions_accepts_iff {A}
        (sample_width bin_size diffusion : list A) (n_dim : Z) :
  let matching := Z.of_nat (length sample_width) = n_dim
                  /\ Z.of_nat (length bin_size) = n_dim
                  /\ Z.of_nat (length diffusion) = n_dim in
  (check_dimensions sample_width bin_size diffusion n_dim = Accepted
   <-> matching /\ 0 <= n_dim <= 2)
  /\ (check_dimensions sample_width bin_size diffusion n_dim
      = Rejected NotImplementedError
      <-> matching /\ 2 < n_dim)
  /\ (check_dimensions sample_width bin_size diffusion n_dim
      = Rejected ConfigValueError
      <-> ~ matching).
Proof.
  cbv zeta. unfold check_dimensions, wrong_length.
  destruct (Z.eqb_spec (Z.of_nat (length sample_width)) n_dim) as [H1|H1];
    cbn [negb];
    [|repeat split; try discriminate; try tauto; intros; tauto].
  destruct (Z.eqb_spec (Z.of_nat (length bin_size)) n_dim) as [H2|H2];
    cbn [negb];
    [|repeat split; try discriminate; try tauto; intros; tauto].
  destruct (Z.eqb_spec (Z.of_nat (length diffusion)) n_dim) as [H3|H3];
    cbn [negb];
    [|repeat split; try discriminate; try tauto; intros; tauto].
  destruct (n_dim >? 2) eqn:Hn; rewrite Z.gtb_ltb in Hn.
  - apply Z.ltb_lt in Hn.
    repeat split; try discriminate; try tauto; try lia; intros; try lia;
      tauto.
  - apply Z.ltb_ge in Hn.
    repeat split; try discriminate; try tauto; try lia; intros; try lia;
      tauto.
Qed.

(** ** Instances of the conditional statements *)

Lemma wfzs_indices_locate_samples_witness :
  let (wfzs_ene, wfzs_indx) := wfzs [0; 5; 6; 0; 7]%Q 1%Q in
  StronglySorted Z.lt wfzs_indx.
Proof.
  pose proof (@wfzs_indices_locate_samples Q _ [0; 5; 6; 0; 7]%Q 1%Q) as W.
  destruct (wfzs [0; 5; 6; 0; 7]%Q 1%Q) as [wfzs_ene wfzs_indx].
  exact (proj1 (proj2 W)).
Defined.

Lemma group_S12_peaks_separated_witness :
  separated (25 * inject_Z 4)
            (dict_values
               (group_S12 0%Q 1000000%Q 4 0 (inject_Z 25 * inject_Z 0)%Q 1%Q
                          (tail_samples [1; 10; 11] [2; 3; 4]%Q))).
Proof.
  apply (@group_S12_peaks_separated 0%Q 1000000%Q 4 0 1%Q
           [1; 10; 11] [2; 3; 4]%Q).
  repeat constructor.
Defined.

Lemma find_S12_gaps_within_stride_witness :
  exists S12L,
    find_S12 [1; 2; 3; 4]%Q [0; 1; 10; 11]
             0%Q 1000000%Q 1 100 4 false 40 = Ok S12L
    /\ Forall (fun te => gaps_within (25 * inject_Z 4) (fst te))
              (dict_values S12L).
Proof.
  apply (@find_S12_gaps_within_stride 0%Q 1000000%Q 4 0 1%Q
           [1; 10; 11] [2; 3; 4]%Q 1 100 40).
  - reflexivity.
  - repeat constructor.
Defined.

Lemma rebin_waveform_stride_one_witness :
  exists T E,
    rebin_waveform [1; 2; 3]%Q [3; 1; 4]%Q 1 = Ok (T, E)
    /\ Forall2 Qeq T [1; 2; 3]%Q /\ Forall2 Qeq E [3; 1; 4]%Q.
Proof.
  apply (@rebin_waveform_stride_one [1; 2; 3]%Q [3; 1; 4]%Q).
  reflexivity.
Defined.

Lemma find_S12_rebin_conserves_peak_energy_witness :
  exists S12L S12L_rebinned,
    find_S12 [1; 2; 3; 4]%Q [0; 1; 2; 11]
             0%Q 1000000%Q 1 100 4 false 2 = Ok S12L
    /\ find_S12 [1; 2; 3; 4]%Q [0; 1; 2; 11]
                0%Q 1000000%Q 1 100 4 true 2 = Ok S12L_rebinned
    /\ dict_keys S12L_rebinned = dict_keys S12L
    /\ Forall2 (fun TE te => (Qsum (snd TE) == Qsum (snd te))%Q)
               (dict_values S12L_rebinned) (dict_values S12L).
Proof.
  apply (@find_S12_rebin_conserves_peak_energy 1%Q [2; 3; 4]%Q 0 [1; 2; 11]
           0%Q 1000000%Q 1 100 4 2).
  - reflexivity.
  - reflexivity.
Defined.

Lemma find_S12_after_wfzs_gaps_within_stride_witness :
  let found :=
    find_S12 (fst (wfzs [0; 5; 6; 0; 0; 0; 0; 0; 7]%Q 1%Q))
             (snd (wfzs [0; 5; 6; 0; 0; 0; 0; 0; 7]%Q 1%Q))
             0%Q 1000000%Q 1 100 4 false 40 in
  found = Ok [(0%nat, ([25; 50]%Q, [5; 6]%Q)); (1%nat, ([200]%Q, [7]%Q))]
  /\ Forall (fun te => gaps_within (25 * inject_Z 4) (fst te))
            (dict_values (rows_of found)).
Proof.
  cbv zeta. split; [vm_compute; reflexivity|].
  apply (@find_S12_after_wfzs_gaps_within_stride
           [0; 5; 6; 0; 0; 0; 0; 0; 7]%Q 1%Q 0%Q 1000000%Q 1 100 4 40).
  - apply Qle_refl.
  - vm_compute. reflexivity.
Defined.

Lemma create_deconvolution_df_rows_share_slice_witness :
  let df := create_deconvolution_df
              [one_hit] [0.1; 0.5; 1.0]%float
              [[0; 1; 2]%float; [0; 0; 0]%float] rel 0.4%float 2 in
  Forall (fun r => deco_event r = cdst_event one_hit
                   /\ deco_npeak r = cdst_npeak one_hit
                   /\ deco_Z r = cdst_Z one_hit) (rows_of df).
Proof.
  cbv zeta.
  apply (@create_deconvolution_df_rows_share_slice float _ one_hit []
           [0.1; 0.5; 1.0]%float [[0; 1; 2]%float; [0; 0; 0]%float]
           rel 0.4%float).
  vm_compute. reflexivity.
Defined.

Lemma create_deconvolution_df_abs_above_cut_witness :
  let df := create_deconvolution_df
              [one_hit] [0.1; 0.5; 1.0]%float
              [[0; 1; 2]%float; [0; 0; 0]%float] abs 0.5%float 2 in
  Forall (fun r => gtb (deco_E r) 0.5%float = true) (rows_of df)
  /\ (length (rows_of df) <= 3)%nat.
Proof.
  cbv zeta.
  apply (@create_deconvolution_df_abs_above_cut float _ [one_hit]
           [0.1; 0.5; 1.0]%float [[0; 1; 2]%float; [0; 0; 0]%float]
           0.5%float 2).
  vm_compute. reflexivity.
Defined.

(** An event of two peaks: peak 0 with one slice of two sensors at Z = 0
    and one slice of one sensor at Z = 5, peak 1 with one slice.
    [deconvolve_hits_identity] returns on each of the three slices, and
    [apply_deconvolution] returns the event. *)
Lemma apply_deconvolution_needs_rows_witness :
  exists deco,
    apply_deconvolution deconvolve_hits_identity Ec
                        [sensor_row 0 0 1 3; sensor_row 0 5 1 4;
                         sensor_row 1 0 2 5; sensor_row 0 0 3 6]
    = Ok deco.
Proof.
  apply (proj1 (proj2 (@apply_deconvolution_needs_rows
                         deconvolve_hits_identity Ec
                         [sensor_row 0 0 1 3; sensor_row 0 5 1 4;
                          sensor_row 1 0 2 5; sensor_row 0 0 3 6])
                      eq_refl)).
  intros peak slice Hpeak Hslice. vm_compute in Hpeak.
  destruct Hpeak as [<-|[<-|[]]]; vm_compute in Hslice.
  - destruct Hslice as [<-|[<-|[]]]; eexists; vm_compute; reflexivity.
  - destruct Hslice as [<-|[]]; eexists; vm_compute; reflexivity.
Defined.

Lemma apply_deconvolution_conserves_event_energy_witness :
  let df := [cdst_of_energy 3%Q; cdst_of_energy 4%Q] in
  let deco := rows_of (apply_deconvolution one_hit_per_slice Ec df) in
  (series_sum (map deco_E deco) == series_sum (map (energy Ec) df))%Q.
Proof.
  cbv zeta.
  apply (@apply_deconvolution_conserves_event_energy one_hit_per_slice Ec
           [cdst_of_energy 3%Q; cdst_of_energy 4%Q]).
  - vm_compute. reflexivity.
  - intros g d Hin Hd. vm_compute in Hin.
    destruct Hin as [<-|[]]. vm_compute in Hd. injection Hd as <-.
    vm_compute. intros Heq. discriminate Heq.
Defined.
